(** * wikipedia-utils: paragraph extraction and passage building

    A shallow embedding of [extract_paragraphs_from_page_htmls.py] and
    [make_passages_from_paragraphs.py], with the properties of the
    specification stated and settled against it.

    Modelling conventions.
    - A Python [str] is a list of Unicode code points ([char := N]); [len]
      is the length of that list.  Tag names and dictionary keys, which are
      ASCII in the source, are Rocq strings.
    - Python [int] is [Z].  A Python [float] is the rational number it
      stands for, in [Q]: the result of a float operation is the exact
      result rounded to the nearest number with a 53-bit significand, ties
      to the even one ([binary64]).  The exponent range is not bounded:
      the quotients and products of the source are made of lengths of
      texts and stay far from it.  Comparisons of floats with ints are
      exact, as in Python.
    - A call that can raise or loop forever returns an [outcome].
    - The external collaborators (the sentence splitter, the HTML parser,
      the Unicode database) are parameters; the parsed tree is the input of
      the extractor. *)

From Stdlib Require Import String Ascii DecimalString DecimalPos DecimalZ.
From Stdlib Require Import SpecFloat.
From Stdlib Require Import List ZArith NArith QArith Qround Qpower Bool Lia Lqa.
Import ListNotations.

Set Warnings "-register-all".

Local Open Scope Z_scope.

(** ** Python strings *)

Module PyStr.

Definition char := N.
Definition str := list char.

Definition len (s : str) : Z := Z.of_nat (length s).

(** ASCII literals. *)
Fixpoint lit (s : string) : str :=
  match s with
  | EmptyString => []
  | String a s' => N_of_ascii a :: lit s'
  end.

Definition nl : char := 10%N.
Definition space : char := 32%N.

(** [str.isspace] for one code point: the characters removed by
    [str.strip()] and separating fields in [str.split()]. *)
Definition isspace (c : char) : bool :=
  ((9 <=? c) && (c <=? 13) || (28 <=? c) && (c <=? 32)
   || (c =? 133) || (c =? 160) || (c =? 5760)
   || (8192 <=? c) && (c <=? 8202)
   || (c =? 8232) || (c =? 8233) || (c =? 8239) || (c =? 8287)
   || (c =? 12288))%N.

Fixpoint lstrip (s : str) : str :=
  match s with
  | [] => []
  | c :: s' => if isspace c then lstrip s' else s
  end.

Definition rstrip (s : str) : str := rev (lstrip (rev s)).

(** [s.strip()] *)
Definition strip (s : str) : str := rstrip (lstrip s).

(** [sep.join(parts)] *)
Fixpoint join (sep : str) (parts : list str) : str :=
  match parts with
  | [] => []
  | [p] => p
  | p :: ps => p ++ sep ++ join sep ps
  end.

(** [s.split()]: the maximal runs of non-whitespace characters.  [cur] is
    the field being read, reversed. *)
Fixpoint split_ws_aux (cur : str) (s : str) : list str :=
  match s with
  | [] => match cur with [] => [] | _ => [rev cur] end
  | c :: s' =>
      if isspace c
      then match cur with
           | [] => split_ws_aux [] s'
           | _ => rev cur :: split_ws_aux [] s'
           end
      else split_ws_aux (c :: cur) s'
  end.

Definition split_ws (s : str) : list str := split_ws_aux [] s.

(** [re.split(r'\n+', s)]: the fields between maximal runs of newlines;
    a leading or trailing run leaves an empty first or last field.
    [in_run] says that the previous character was a newline. *)
Fixpoint re_split_newlines_aux (in_run : bool) (s : str) : list str :=
  match s with
  | [] => [[]]
  | c :: s' =>
      if (c =? nl)%N
      then if in_run then re_split_newlines_aux true s'
           else [] :: re_split_newlines_aux true s'
      else match re_split_newlines_aux false s' with
           | f :: fs => (c :: f) :: fs
           | [] => [[c]]
           end
  end.

Definition re_split_newlines (s : str) : list str :=
  match re_split_newlines_aux false s with
  | f :: fs => f :: fs
  | [] => [[]]
  end.

(** The text with every run of newlines replaced by one newline. *)
Definition collapse_newlines (s : str) : str := join [nl] (re_split_newlines s).

(** The text with every whitespace character removed: what two strings
    share when they differ only in whitespace. *)
Definition erase_ws (s : str) : str := filter (fun c => negb (isspace c)) s.

Definition all_ws (s : str) : Prop := Forall (fun c => isspace c = true) s.

Definition str_eqb (a b : str) : bool :=
  if list_eq_dec N.eq_dec a b then true else false.

Definition is_empty (s : str) : bool :=
  match s with [] => true | _ => false end.

(** A string that does not end with whitespace, as [strip] leaves it. *)
Definition trimmed (s : str) : Prop :=
  forall s' c, s = s' ++ [c] -> isspace c = false.

(** A field of [s.split()]: not empty, and without whitespace. *)
Definition word (w : str) : Prop :=
  w <> [] /\ Forall (fun c => isspace c = false) w.

End PyStr.
Import PyStr.

(** ** Results of calls that can raise or loop *)

Inductive exn : Type :=
| ZeroDivisionError
| IndexError.

Inductive outcome (A : Type) : Type :=
| Returns (a : A)
| Raises (e : exn)
| Diverges.

Arguments Returns {A} a.
Arguments Raises {A} e.
Arguments Diverges {A}.

(** ** make_passages_from_paragraphs.py: the chunk balancer *)

Module Chunks.

(** The builtin [round] with one argument: to the nearest integer, ties
    to the even one. *)
Definition py_round (x : Q) : Z :=
  let f := Qfloor x in
  match (x - inject_Z f ?= 1 # 2)%Q with
  | Lt => f
  | Gt => f + 1
  | Eq => if Z.even f then f else f + 1
  end.

(** [x * 2^k] *)
Definition scale2 (x : Q) (k : Z) : Q :=
  if 0 <=? k then (x * inject_Z (2 ^ k))%Q else (x / inject_Z (2 ^ (- k)))%Q.

(** [floor (log2 x)] for [x > 0]. *)
Definition floor_log2 (x : Q) : Z :=
  let d := Z.log2 (Qnum x) - Z.log2 (Zpos (Qden x)) in
  if Qle_bool (scale2 1 d) x then d else d - 1.

(** The float nearest to [x]: [m * 2^e] with [m] the integer nearest to
    [|x| / 2^e], ties to even, where [e] puts [|x| / 2^e] between [2^52]
    and [2^53]. *)
Definition binary64 (x : Q) : Q :=
  match Qnum x with
  | 0 => 0%Q
  | Zpos _ =>
      let e := floor_log2 x - 52 in
      scale2 (inject_Z (py_round (scale2 x (- e)))) e
  | Zneg _ =>
      let e := floor_log2 (- x) - 52 in
      (- scale2 (inject_Z (py_round (scale2 (- x) (- e)))) e)%Q
  end.

(** The value of a float of the Standard Library's model of IEEE 754
    arithmetic, and the float of an int there; [binary64] is compared with
    that model on samples below. *)
Definition spec_value (f : spec_float) : option Q :=
  match f with
  | S754_zero _ => Some 0%Q
  | S754_finite s m e =>
      Some (if s then (- scale2 (inject_Z (Zpos m)) e)%Q
            else scale2 (inject_Z (Zpos m)) e)
  | S754_infinity _ | S754_nan => None
  end.

Definition spec_of_int (z : Z) : spec_float := binary_normalize 53 1024 z 0 false.

Definition same_value (f : spec_float) (x : Q) : bool :=
  match spec_value f with
  | Some v => Qeq_bool v x
  | None => false
  end.

(** [a / b] on two ints, for [b <> 0]: the float nearest to the
    quotient. *)
Definition true_div (a b : Z) : Q := binary64 (inject_Z a / inject_Z b).

(** [float(k)] for an int, and [x * y] on two floats. *)
Definition float_of_int (k : Z) : Q := binary64 (inject_Z k).
Definition float_mul (x y : Q) : Q := binary64 (x * y).

(** [nchar_chunk > max_nchar] *)
Definition exceeds (nchar_chunk : Q) (max_nchar : Z) : bool :=
  negb (Qle_bool nchar_chunk (inject_Z max_nchar)).

(** The [while True] loop of lines 36-41: [nchunk] grows while the
    per-chunk size [total_nchar / nchunk] exceeds [max_nchar].  [None] when
    [fuel] iterations were not enough. *)
Fixpoint grow_nchunk (fuel : nat) (total_nchar max_nchar nchunk : Z) : option Z :=
  match fuel with
  | O => None
  | S fuel' =>
      if exceeds (true_div total_nchar nchunk) max_nchar
      then grow_nchunk fuel' total_nchar max_nchar (nchunk + 1)
      else Some nchunk
  end.

(** [nchunk = max(1, round(total_nchar / max_nchar))] *)
Definition estimate_nchunk (total_nchar max_nchar : Z) : Z :=
  Z.max 1 (py_round (true_div total_nchar max_nchar)).

(** [sentences[-1] = sentences[-1] + suffix], guarded by
    [len(sentences) > 0]. *)
Fixpoint append_to_last (sentences : list str) (suffix : str) : list str :=
  match sentences with
  | [] => []
  | [s] => [s ++ suffix]
  | s :: rest => s :: append_to_last rest suffix
  end.

(** Lines 48-51: the sentences of every line, the last sentence read so
    far taking a newline after each line. *)
Definition split_sentences (splitter : str -> list str) (text : str) : list str :=
  fold_left
    (fun sentences line => append_to_last (sentences ++ splitter line) [nl])
    (re_split_newlines text) [].

Record pack_state : Type := {
  nchar : Z;
  chunk_id : Z;
  chunks : list str;
  chunk_text : str
}.

(** One iteration of the loop of lines 55-69. *)
Definition pack_step (nchar_chunk : Q) (nchunk : Z)
    (st : pack_state) (sentence : str) : pack_state :=
  let l := len sentence in
  let st' :=
    if Qle_bool (float_mul nchar_chunk (float_of_int (chunk_id st)))
         (inject_Z (nchar st + l / 2))
    then if negb (chunk_id st =? nchunk)
         then {| nchar := nchar st;
                 chunk_id := chunk_id st + 1;
                 chunks := chunks st ++ [strip (chunk_text st)];
                 chunk_text := [] |}
         else st
    else st in
  {| nchar := nchar st' + l;
     chunk_id := chunk_id st';
     chunks := chunks st';
     chunk_text := chunk_text st' ++ sentence |}.

Definition pack_init : pack_state :=
  {| nchar := 0; chunk_id := 1; chunks := []; chunk_text := [] |}.

(** Lines 71-74. *)
Definition pack_finish (st : pack_state) : list str :=
  if is_empty (chunk_text st) then chunks st
  else chunks st ++ [strip (chunk_text st)].

Definition pack (nchar_chunk : Q) (nchunk : Z) (sentences : list str) : list str :=
  pack_finish (fold_left (pack_step nchar_chunk nchunk) sentences pack_init).

(** What a state of the loop holds apart from whitespace, and the relation
    the loop keeps between the chunks closed and the chunk number. *)
Definition content (st : pack_state) : str :=
  erase_ws (concat (chunks st)) ++ erase_ws (chunk_text st).

Definition counted (nchunk : Z) (st : pack_state) : Prop :=
  chunk_id st <= nchunk /\ Z.of_nat (length (chunks st)) = chunk_id st - 1.

(** [split_section(text, splitter, max_nchar)].  The loop on [nchunk] is
    given [total_nchar] iterations: enough for it to end when
    [max_nchar >= 1] ([grow_nchunk_some] below), while under a negative
    [max_nchar] the source loop never ends ([grow_nchunk_never]). *)
Definition split_section (text : str) (splitter : str -> list str)
    (max_nchar : Z) : outcome (list str) :=
  let total_nchar := len text in
  if total_nchar <=? max_nchar then Returns [text]
  else if max_nchar =? 0 then Raises ZeroDivisionError
  else
    match grow_nchunk (Z.to_nat total_nchar) total_nchar max_nchar
            (estimate_nchunk total_nchar max_nchar) with
    | None => Diverges
    | Some nchunk =>
        let nchar_chunk := true_div total_nchar nchunk in
        Returns (pack nchar_chunk nchunk (split_sentences splitter text))
    end.

(** Two sentence splitters that satisfy the collaborator's contract: the
    whole line as one sentence, and a cut after every full stop. *)
Definition one_sentence (line : str) : list str := [line].

Definition is_stop (c : char) : bool := ((c =? 46) || (c =? 12290))%N.

Fixpoint stop_splitter_aux (cur : str) (line : str) : list str :=
  match line with
  | [] => match cur with [] => [] | _ => [rev cur] end
  | c :: line' =>
      if is_stop c then rev (c :: cur) :: stop_splitter_aux [] line'
      else stop_splitter_aux (c :: cur) line'
  end.

Definition stop_splitter (line : str) : list str := stop_splitter_aux [] line.

Definition splitter_contract (splitter : str -> list str) : Prop :=
  forall line, concat (splitter line) = line.

(** [reconstructs chunks text]: the text is the chunks in order, with
    whitespace only before, between and after them; what a text and its
    chunks are to each other when nothing but whitespace trimmed at the
    ends of the chunks is missing. *)
Inductive reconstructs : list str -> str -> Prop :=
| reconstructs_nil (w : str) :
    all_ws w -> reconstructs [] w
| reconstructs_cons (w chunk : str) (chunks : list str) (rest : str) :
    all_ws w -> reconstructs chunks rest ->
    reconstructs (chunk :: chunks) (w ++ chunk ++ rest).

End Chunks.

(** ** JSON values and [json.dumps(..., ensure_ascii=False)] *)

Module Json.

Inductive json : Type :=
| JInt (z : Z)
| JStr (s : str)
| JObj (members : list (str * json)).

Definition quote : char := 34%N.
Definition backslash : char := 92%N.
Definition lbrace : char := 123%N.
Definition rbrace : char := 125%N.

Definition hex_digit (d : N) : char :=
  (if d <? 10 then 48 + d else 87 + d)%N.

(** The replacement of one character inside a JSON string: the quote, the
    backslash and the control characters below U+0020 are escaped, every
    other character is written as it is. *)
Definition escape_char (c : char) : str :=
  (if c =? quote then [backslash; quote]
   else if c =? backslash then [backslash; backslash]
   else if c =? 10 then [backslash; 110]
   else if c =? 13 then [backslash; 114]
   else if c =? 9 then [backslash; 116]
   else if c =? 8 then [backslash; 98]
   else if c =? 12 then [backslash; 102]
   else if c <? 32 then [backslash; 117; 48; 48; hex_digit (c / 16); hex_digit (c mod 16)]
   else [c])%N.

Definition encode_basestring (s : str) : str :=
  [quote] ++ flat_map escape_char s ++ [quote].

(** [str(z)] for an int. *)
Definition str_of_int (z : Z) : str := lit (NilZero.string_of_int (Z.to_int z)).

Fixpoint json_dumps (v : json) : str :=
  match v with
  | JInt z => str_of_int z
  | JStr s => encode_basestring s
  | JObj members =>
      [lbrace]
      ++ join (lit ", ")
           (map (fun kv => encode_basestring (fst kv) ++ lit ": " ++ json_dumps (snd kv))
              members)
      ++ [rbrace]
  end.

End Json.

(** ** make_passages_from_paragraphs.py: the passage grouper *)

Module Passages.
Import Chunks Json.

(** The [section] dictionary of a paragraph record: the keys [h2], [h3],
    [h4], [dt], each present or not.  Two dictionaries are equal when they
    hold the same keys with the same values. *)
Record section_dict : Type := {
  sec_h2 : option str;
  sec_h3 : option str;
  sec_h4 : option str;
  sec_dt : option str
}.

(** One line of the paragraphs file, with the fields that
    [generate_passages] reads. *)
Record paragraph : Type := {
  pageid : Z;
  revid : Z;
  title : str;
  section : section_dict;
  text : str
}.

Definition option_str_eqb (a b : option str) : bool :=
  match a, b with
  | Some x, Some y => str_eqb x y
  | None, None => true
  | _, _ => false
  end.

Definition section_eqb (a b : section_dict) : bool :=
  option_str_eqb (sec_h2 a) (sec_h2 b) && option_str_eqb (sec_h3 a) (sec_h3 b)
  && option_str_eqb (sec_h4 a) (sec_h4 b) && option_str_eqb (sec_dt a) (sec_dt b).

Definition member (key : string) (v : option str) : list (str * json) :=
  match v with
  | Some s => [(lit key, JStr s)]
  | None => []
  end.

Definition section_json (s : section_dict) : json :=
  JObj (member "h2" (sec_h2 s) ++ member "h3" (sec_h3 s)
        ++ member "h4" (sec_h4 s) ++ member "dt" (sec_dt s)).

(** The dictionary of lines 101-108. *)
Definition output_item (passage_id : Z) (lastrow : paragraph) (chunk : str) : json :=
  JObj [ (lit "id", JInt passage_id);
         (lit "pageid", JInt (pageid lastrow));
         (lit "revid", JInt (revid lastrow));
         (lit "title", JStr (title lastrow));
         (lit "section", section_json (section lastrow));
         (lit "text", JStr chunk) ].

(** The [for chunk in ...] loop of lines 99-111: the items yielded and the
    value of [passage_id] after it. *)
Fixpoint yield_chunks (passage_id : Z) (lastrow : paragraph) (chunks : list str)
    : list str * Z :=
  match chunks with
  | [] => ([], passage_id)
  | chunk :: chunks' =>
      let '(items, passage_id') := yield_chunks (passage_id + 1) lastrow chunks' in
      (json_dumps (output_item passage_id lastrow chunk) :: items, passage_id')
  end.

(** [title != lastrow["title"] or section != lastrow["section"]] *)
Definition key_changed (row lastrow : paragraph) : bool :=
  negb (str_eqb (title row) (title lastrow))
  || negb (section_eqb (section row) (section lastrow)).

Section Generator.

Variable sentence_splitter : str -> list str.
Variable max_passage_length : Z.

(** The [for row in data] loop of lines 91-115, from the state
    [(passage_id, section_rows, lastrow)]: the items yielded, in order, and
    how the generator ends. *)
Fixpoint rows_loop (data : list paragraph) (passage_id : Z)
    (section_rows : list paragraph) (lastrow : paragraph)
    : list str * outcome unit :=
  match data with
  | [] => ([], Returns tt)
  | row :: data' =>
      if key_changed row lastrow
      then
        let section_text := join [nl] (map text section_rows) in
        match split_section section_text sentence_splitter max_passage_length with
        | Returns chunks =>
            let '(items, passage_id') := yield_chunks passage_id lastrow chunks in
            let '(rest, how) := rows_loop data' passage_id' [row] row in
            (items ++ rest, how)
        | Raises e => ([], Raises e)
        | Diverges => ([], Diverges)
        end
      else rows_loop data' passage_id (section_rows ++ [row]) row
  end.

(** [generate_passages]: [data] is the list of decoded lines of the
    paragraphs file. *)
Definition generate_passages (data : list paragraph) : list str * outcome unit :=
  match data with
  | [] => ([], Raises IndexError)
  | row0 :: _ => rows_loop data 0 [] row0
  end.

(** [main]: the lines printed to the output file. *)
Definition main (data : list paragraph) : list str * outcome unit :=
  let '(items, how) := generate_passages data in
  (map (fun passage_item => json_dumps (JStr passage_item)) items, how).

(** The grouper as the specification words it, for comparison: the same
    loop, then a flush of the group still buffered when the stream ends. *)
Fixpoint rows_loop_flushing (data : list paragraph) (passage_id : Z)
    (section_rows : list paragraph) (lastrow : paragraph)
    : list str * outcome unit :=
  match data with
  | [] =>
      let section_text := join [nl] (map text section_rows) in
      match split_section section_text sentence_splitter max_passage_length with
      | Returns chunks => (fst (yield_chunks passage_id lastrow chunks), Returns tt)
      | Raises e => ([], Raises e)
      | Diverges => ([], Diverges)
      end
  | row :: data' =>
      if key_changed row lastrow
      then
        let section_text := join [nl] (map text section_rows) in
        match split_section section_text sentence_splitter max_passage_length with
        | Returns chunks =>
            let '(items, passage_id') := yield_chunks passage_id lastrow chunks in
            let '(rest, how) := rows_loop_flushing data' passage_id' [row] row in
            (items ++ rest, how)
        | Raises e => ([], Raises e)
        | Diverges => ([], Diverges)
        end
      else rows_loop_flushing data' passage_id (section_rows ++ [row]) row
  end.

(** [generate_passages] with the final flush of the specification. *)
Definition generate_passages_flushing (data : list paragraph)
    : list str * outcome unit :=
  match data with
  | [] => ([], Raises IndexError)
  | row0 :: _ => rows_loop_flushing data 0 [] row0
  end.

End Generator.

End Passages.

(** ** extract_paragraphs_from_page_htmls.py *)

(** The Unicode database behind [unicodedata.normalize("NFKC", _)] and
    [str.isprintable]. *)
Class Unicodedata : Type := {
  normalize_NFKC : str -> str;
  isprintable : char -> bool
}.

Module Extractor.

Local Open Scope string_scope.
Local Open Scope list_scope.

Definition DEFAULT_TAGS_TO_REMOVE : list string := ["table"].
Definition DEFAULT_TAGS_TO_EXTRACT : list string :=
  ["p"; "h3"; "h4"; "h5"; "h6"; "dt"; "dd"; "li"; "th"; "tr"].
Definition DEFAULT_INNER_TAGS_TO_REMOVE : list string := ["sup"].

(** [normalize_text], lines 31-36. *)
Definition normalize_text {U : Unicodedata} (text : str) : str :=
  let text := normalize_NFKC text in
  let text := join [space] (split_ws text) in
  let text := filter isprintable text in
  let text := strip text in
  text.

(** The classes of strings that Beautiful Soup derives from
    [NavigableString]: what the parser makes of comments, declarations and
    the like, and of the strings inside style, script, template, rt and rp
    elements. *)
Inductive string_class : Type :=
| CData
| ProcessingInstruction
| Comment
| Declaration
| Doctype
| Stylesheet
| Script
| TemplateString
| RubyTextString
| RubyParenthesisString.

(** The parsed document: elements with a name and contents, strings of
    the class [NavigableString] itself, and strings of a class derived
    from it. *)
Inductive node : Type :=
| Tag (name : string) (contents : list node)
| NavigableString (s : str)
| SpecialString (class : string_class) (s : str).

Definition name_in (name : string) (names : list string) : bool :=
  existsb (String.eqb name) names.

(** [builder.string_containers] of the HTML tree builders: the elements
    whose strings get a class of their own. *)
Definition string_containers (name : string) : option string_class :=
  if String.eqb name "rt" then Some RubyTextString
  else if String.eqb name "rp" then Some RubyParenthesisString
  else if String.eqb name "style" then Some Stylesheet
  else if String.eqb name "script" then Some Script
  else if String.eqb name "template" then Some TemplateString
  else None.

(** [tag.interesting_string_types], as a test on the class of a string,
    [None] for [NavigableString] itself: the class of the container when
    the element is one, else [NavigableString] and [CData]. *)
Definition interesting_string_types (name : string) (class : option string_class)
    : bool :=
  match string_containers name, class with
  | None, None | None, Some CData => true
  | Some RubyTextString, Some RubyTextString => true
  | Some RubyParenthesisString, Some RubyParenthesisString => true
  | Some Stylesheet, Some Stylesheet => true
  | Some Script, Some Script => true
  | Some TemplateString, Some TemplateString => true
  | _, _ => false
  end.

(** [_all_strings(types=...)]: the strings at and below [n] whose class
    is among [types], in document order, put end to end. *)
Fixpoint all_strings (types : option string_class -> bool) (n : node) : str :=
  match n with
  | Tag _ contents => flat_map (all_strings types) contents
  | NavigableString s => if types None then s else []
  | SpecialString class s => if types (Some class) then s else []
  end.

(** [tag.text]: the strings below the tag that are of a class
    interesting to the tag: a comment, a style sheet or a script below a
    paragraph is left out.  The text of a string is the string. *)
Definition get_text (n : node) : str :=
  match n with
  | Tag name contents => flat_map (all_strings (interesting_string_types name)) contents
  | NavigableString s => s
  | SpecialString _ s => s
  end.

(** The tree after [for tag in t.find_all(names): tag.clear()]: every
    element below with one of the [names] has lost its contents. *)
Fixpoint clear_all (names : list string) (n : node) : node :=
  match n with
  | Tag name contents =>
      if name_in name names then Tag name []
      else Tag name (map (clear_all names) contents)
  | NavigableString _ | SpecialString _ _ => n
  end.

(** The first element with the given name at or below [n], in document
    order; [find_first_in name (contents of t)] is [t.find(name)]. *)
Fixpoint find_first (name : string) (n : node) : option node :=
  match n with
  | Tag name' contents =>
      if String.eqb name' name then Some n
      else
        (fix first_of (ns : list node) : option node :=
           match ns with
           | [] => None
           | n' :: ns' =>
               match find_first name n' with
               | Some r => Some r
               | None => first_of ns'
               end
           end) contents
  | NavigableString _ | SpecialString _ _ => None
  end.

Fixpoint find_first_in (name : string) (ns : list node) : option node :=
  match ns with
  | [] => None
  | n :: ns' =>
      match find_first name n with
      | Some r => Some r
      | None => find_first_in name ns'
      end
  end.

(** [soup.find(["section"])] below the node [n], with what the walk needs
    of its place in the tree: the names of its ancestors, nearest first,
    the section itself, and the siblings after it. *)
Fixpoint locate_section (anc : list string) (n : node)
    : option (list string * node * list node) :=
  match n with
  | Tag name contents =>
      (fix scan (ns : list node) : option (list string * node * list node) :=
         match ns with
         | [] => None
         | n' :: ns' =>
             match n' with
             | Tag name' _ =>
                 if String.eqb name' "section" then Some (name :: anc, n', ns')
                 else match locate_section (name :: anc) n' with
                      | Some r => Some r
                      | None => scan ns'
                      end
             | NavigableString _ | SpecialString _ _ => scan ns'
             end
         end) contents
  | NavigableString _ | SpecialString _ _ => None
  end.

Definition is_section (n : node) : bool :=
  match n with
  | Tag name _ => String.eqb name "section"
  | NavigableString _ | SpecialString _ _ => false
  end.

(** The sections the [while section] loop visits: the first one of the
    document and, by [find_next_sibling], its later siblings that are
    sections; with the names of their common ancestors. *)
Definition sections_of (soup : node) : list string * list node :=
  match locate_section [] soup with
  | Some (anc, first, siblings) => (anc, first :: filter is_section siblings)
  | None => ([], [])
  end.

(** One element of [tags = section.find_all(tags_to_extract)] as the loop
    body meets it: its name, whether [find_parent] finds one of dd, li,
    th, tr above it at that moment, and its text once its inner tags are
    cleared. *)
Record visit : Type := {
  tag_name : string;
  skip : bool;
  tag_text : str
}.

Definition SKIP_PARENTS : list string := ["dd"; "li"; "th"; "tr"].

Section Walk.

Variable tags_to_extract : list string.
Variable tags_to_remove : list string.
Variable inner_tags_to_remove : list string.

(** The elements of [tags] at and below [n], in document order.  [anc]
    holds the names of the ancestors [n] is still attached to when its turn
    comes; [cut] says that an element above [n] went through the loop body
    without being skipped, so that every inner tag below it has been
    cleared: the contents of such a tag were detached from the tree, keep
    their own subtrees, and have no ancestor left. *)
Fixpoint visits (anc : list string) (cut : bool) (n : node) : list visit :=
  match n with
  | Tag name contents =>
      let skipped := existsb (fun parent_tag => name_in parent_tag anc) SKIP_PARENTS in
      let extracted := name_in name tags_to_extract in
      let cleared := cut && name_in name inner_tags_to_remove in
      let here :=
        if extracted
        then [{| tag_name := name;
                 skip := skipped;
                 tag_text :=
                   if cleared then []
                   else get_text
                          (Tag name (map (clear_all inner_tags_to_remove) contents)) |}]
        else [] in
      let anc' := if cleared then [] else name :: anc in
      let cut' := cut || (extracted && negb skipped) in
      here ++ flat_map (visits anc' cut') contents
  | NavigableString _ | SpecialString _ _ => []
  end.

(** The loop body runs over the section once the tags to remove are
    cleared. *)
Definition section_visits (anc : list string) (section : node) : list visit :=
  match section with
  | Tag name contents =>
      flat_map (visits (name :: anc) false)
        (map (clear_all tags_to_remove) contents)
  | NavigableString _ | SpecialString _ _ => []
  end.

(** The heading context [h2, h3, h4, dt]. *)
Record headings : Type := {
  h2 : option str;
  h3 : option str;
  h4 : option str;
  dt : option str
}.

(** A yielded item: [([h2, h3, h4, dt], paragraph_text, tag.name)]. *)
Definition item : Type := (headings * str * string)%type.

Context {U : Unicodedata}.

(** The body of [for tag in tags], lines 58-89: the new context and what
    is yielded. *)
Definition tag_step (ctx : headings) (v : visit) : headings * list item :=
  if skip v then (ctx, [])
  else if String.eqb (tag_name v) "h3"
  then ({| h2 := h2 ctx; h3 := Some (tag_text v); h4 := None; dt := None |}, [])
  else if String.eqb (tag_name v) "h4"
  then ({| h2 := h2 ctx; h3 := h3 ctx; h4 := Some (tag_text v); dt := None |}, [])
  else if String.eqb (tag_name v) "dt"
  then ({| h2 := h2 ctx; h3 := h3 ctx; h4 := h4 ctx; dt := Some (tag_text v) |}, [])
  else (ctx, [(ctx, normalize_text (tag_text v), tag_name v)]).

Fixpoint tags_loop (ctx : headings) (tags : list visit) : headings * list item :=
  match tags with
  | [] => (ctx, [])
  | v :: tags' =>
      let '(ctx1, out1) := tag_step ctx v in
      let '(ctx2, out2) := tags_loop ctx1 tags' in
      (ctx2, out1 ++ out2)
  end.

(** Lines 48-52. *)
Definition enter_section (ctx : headings) (section : node) : headings :=
  match section with
  | Tag _ contents =>
      match find_first_in "h2" contents with
      | Some heading =>
          {| h2 := Some (get_text heading); h3 := None; h4 := None; dt := None |}
      | None => ctx
      end
  | NavigableString _ | SpecialString _ _ => ctx
  end.

(** The [while section] loop, lines 47-91. *)
Fixpoint sections_loop (anc : list string) (ctx : headings) (sections : list node)
    : list item :=
  match sections with
  | [] => []
  | section :: sections' =>
      let ctx0 := enter_section ctx section in
      let '(ctx1, out) := tags_loop ctx0 (section_visits anc section) in
      out ++ sections_loop anc ctx1 sections'
  end.

Definition no_headings : headings :=
  {| h2 := None; h3 := None; h4 := None; dt := None |}.

(** [extract_paragraphs_from_html]: [soup] is the parsed document, the
    items are those the generator yields, in order. *)
Definition extract_paragraphs_from_html (soup : node) : list item :=
  let '(anc, sections) := sections_of soup in
  sections_loop anc no_headings sections.

(** The hierarchy the loop body assumes (comment of line 72): a heading
    h4 is met only below an h3, a dt only below an h4.  [in_h3] and
    [in_h4] say that an h3, an h4 has been met since the context was last
    reset above it. *)
Definition nesting_step (st : bool * bool) (v : visit) : option (bool * bool) :=
  let '(in_h3, in_h4) := st in
  if skip v then Some st
  else if String.eqb (tag_name v) "h3" then Some (true, false)
  else if String.eqb (tag_name v) "h4"
  then if in_h3 then Some (true, true) else None
  else if String.eqb (tag_name v) "dt"
  then if in_h4 then Some st else None
  else Some st.

Fixpoint nesting_tags (st : bool * bool) (tags : list visit) : option (bool * bool) :=
  match tags with
  | [] => Some st
  | v :: tags' =>
      match nesting_step st v with
      | Some st' => nesting_tags st' tags'
      | None => None
      end
  end.

Definition has_h2 (section : node) : bool :=
  match section with
  | Tag _ contents =>
      match find_first_in "h2" contents with Some _ => true | None => false end
  | NavigableString _ | SpecialString _ _ => false
  end.

Fixpoint nesting_sections (anc : list string) (st : bool * bool)
    (sections : list node) : bool :=
  match sections with
  | [] => true
  | section :: sections' =>
      let st0 := if has_h2 section then (false, false) else st in
      match nesting_tags st0 (section_visits anc section) with
      | Some st1 => nesting_sections anc st1 sections'
      | None => false
      end
  end.

Definition well_nested (soup : node) : bool :=
  let '(anc, sections) := sections_of soup in
  nesting_sections anc (false, false) sections.

End Walk.

(** The heading context of an item is monotone: no h4 or dt without h3, no
    dt without h4. *)
Definition monotone (ctx : headings) : Prop :=
  (h3 ctx = None -> h4 ctx = None /\ dt ctx = None)
  /\ (h4 ctx = None -> dt ctx = None).

Definition item_context (it : item) : headings := fst (fst it).

Definition is_some {A : Type} (o : option A) : bool :=
  match o with Some _ => true | None => false end.

(** The flags of [nesting_step] follow the context. *)
Definition tracks (st : bool * bool) (ctx : headings) : Prop :=
  fst st = is_some (h3 ctx) /\ snd st = is_some (h4 ctx) /\ monotone ctx.

End Extractor.

(** What [normalize_text] relies on from NFKC when it is applied again:
    normalizing is idempotent, and a normalized text stays normalized when
    its runs of whitespace are replaced by one space each and those at its
    ends are dropped. *)
Class NormalizationLaws (U : Unicodedata) : Prop := {
  nfkc_idempotent :
    forall s, normalize_NFKC (normalize_NFKC s) = normalize_NFKC s;
  nfkc_collapse :
    forall s, normalize_NFKC s = s ->
      normalize_NFKC (join [space] (split_ws s)) = join [space] (split_ws s)
}.

(** The Unicode database on ASCII text: NFKC leaves it as it is, and the
    printable characters are U+0020 to U+007E.  Code points above U+007F
    are outside this table and pass through unchanged. *)
#[local] Instance ascii_unicodedata : Unicodedata := {|
  normalize_NFKC := fun s => s;
  isprintable := fun c => ((32 <=? c) && (c <=? 126) || (128 <=? c))%N
|}.

(** ** Sample inputs *)

Module Samples.
Import Chunks.

(** Two short lines two newlines apart, then a long line. *)
Definition gap_text : str :=
  lit "a" ++ [nl; nl] ++ lit "b" ++ [nl] ++ repeat 99%N 20.

(** 2000 characters without a line break or a full stop. *)
Definition long_word : str := repeat 97%N 2000.

(** The two paragraphs of the example of the specification, and a third
    one under another heading. *)
Definition under (heading : string) : Passages.section_dict :=
  {| Passages.sec_h2 := Some (lit heading); Passages.sec_h3 := None;
     Passages.sec_h4 := None; Passages.sec_dt := None |}.

Definition row_one : Passages.paragraph :=
  {| Passages.pageid := 5; Passages.revid := 7; Passages.title := lit "A";
     Passages.section := under "X"; Passages.text := lit "Sentence one." |}.

Definition row_two : Passages.paragraph :=
  {| Passages.pageid := 5; Passages.revid := 7; Passages.title := lit "A";
     Passages.section := under "X"; Passages.text := lit "Sentence two." |}.

Definition row_three : Passages.paragraph :=
  {| Passages.pageid := 5; Passages.revid := 7; Passages.title := lit "A";
     Passages.section := under "Y"; Passages.text := lit "Sentence three." |}.

Import Extractor.
Local Open Scope string_scope.
Local Open Scope list_scope.

Definition txt (s : string) : node := NavigableString (lit s).

(** A section whose definition list comes directly under its h2. *)
Definition definition_list_page : node :=
  Tag "[document]" [Tag "html" [Tag "body" [
    Tag "section" [
      Tag "h2" [txt "History"];
      Tag "dl" [Tag "dt" [txt "Term"]; Tag "dd" [txt "A description."]]]]]].

(** Two sections with headings nested h2, h3, h4, dt. *)
Definition nested_page : node :=
  Tag "[document]" [Tag "html" [Tag "body" [
    Tag "section" [
      Tag "h2" [txt "Life"];
      Tag "p" [txt "Born  in 1900."; Tag "sup" [txt "[1]"]];
      Tag "h3" [txt "Youth"];
      Tag "h4" [txt "School"];
      Tag "dl" [Tag "dt" [txt "First"]; Tag "dd" [txt "A village school."]];
      Tag "ul" [Tag "li" [txt "An item "; Tag "p" [txt "inside"]]]];
    Tag "section" [
      Tag "p" [txt "More of the same."];
      Tag "h3" [txt "Work"];
      Tag "table" [Tag "tr" [Tag "th" [txt "cell"]]];
      Tag "p" [txt "Last."]]]]].

(** A control character between two spaces. *)
Definition control_text : str := lit "a " ++ [0%N] ++ lit " b".

End Samples.

(** ** extract_paragraphs_from_page_htmls.py: [main] *)

Module ExtractorMain.
Import Json Extractor.

Local Open Scope string_scope.
Local Open Scope list_scope.

(** The headings of the footnote, source, reference, see-also and
    external-link sections, as code points. *)
Definition DEFAULT_SECTIONS_TO_IGNORE : list str :=
  [ [33050; 27880]; [20986; 20856]; [21442; 32771; 25991; 29486];
    [38306; 36899; 38917; 30446]; [22806; 37096; 12522; 12531; 12463] ]%N.

(** The parsed command line: the four lists are optional, the two lengths
    have defaults. *)
Record arguments : Type := {
  arg_tags_to_extract : option (list string);
  arg_tags_to_remove : option (list string);
  arg_inner_tags_to_remove : option (list string);
  arg_sections_to_ignore : option (list str);
  min_paragraph_length : Z;
  max_paragraph_length : Z
}.

(** One decoded line of the page file. *)
Record input_item : Type := {
  pageid : Z;
  revid : Z;
  title : str;
  html : str
}.

(** [x = args.x if args.x is not None else DEFAULT_X], lines 95-113. *)
Definition or_default {A : Type} (given : option A) (default : A) : A :=
  match given with
  | Some x => x
  | None => default
  end.

(** [sections[0] in sections_to_ignore] *)
Definition ignored (sections_to_ignore : list str) (sections : headings) : bool :=
  match h2 sections with
  | Some heading => existsb (str_eqb heading) sections_to_ignore
  | None => false
  end.

(** Lines 139-147. *)
Definition sections_dict (sections : headings) : json :=
  JObj (Passages.member "h2" (h2 sections) ++ Passages.member "h3" (h3 sections)
        ++ Passages.member "h4" (h4 sections) ++ Passages.member "dt" (dt sections)).

(** ["{}-{}-{}".format(page_id, rev_id, paragraph_index)] *)
Definition paragraph_id (page_id rev_id paragraph_index : Z) : str :=
  str_of_int page_id ++ lit "-" ++ str_of_int rev_id ++ lit "-"
  ++ str_of_int paragraph_index.

(** The dictionary of lines 150-159. *)
Definition output_item (page : input_item) (paragraph_index : Z) (it : item) : json :=
  let '(sections, paragraph_text, tag_name) := it in
  JObj [ (lit "id", JStr (paragraph_id (pageid page) (revid page) paragraph_index));
         (lit "pageid", JInt (pageid page));
         (lit "revid", JInt (revid page));
         (lit "paragraph_index", JInt paragraph_index);
         (lit "title", JStr (title page));
         (lit "section", sections_dict sections);
         (lit "text", JStr paragraph_text);
         (lit "html_tag", JStr (lit tag_name)) ].

Section Main.

Context {U : Unicodedata}.

(** [BeautifulSoup(html, features="lxml")] *)
Variable BeautifulSoup : str -> node.
Variable args : arguments.

Definition tags_to_extract : list string :=
  or_default (arg_tags_to_extract args) DEFAULT_TAGS_TO_EXTRACT.
Definition tags_to_remove : list string :=
  or_default (arg_tags_to_remove args) DEFAULT_TAGS_TO_REMOVE.
Definition inner_tags_to_remove : list string :=
  or_default (arg_inner_tags_to_remove args) DEFAULT_INNER_TAGS_TO_REMOVE.
Definition sections_to_ignore : list str :=
  or_default (arg_sections_to_ignore args) DEFAULT_SECTIONS_TO_IGNORE.

(** The three tests of lines 132-137 that end in [continue]. *)
Definition dropped (it : item) : bool :=
  let '(sections, paragraph_text, tag_name) := it in
  if ignored sections_to_ignore sections then true
  else if (len paragraph_text <? min_paragraph_length args)%Z then true
  else if (max_paragraph_length args <? len paragraph_text)%Z then true
  else false.

(** The [for item in ...] loop of lines 129-161, from the value of
    [paragraph_index]: the lines printed. *)
Fixpoint items_loop (page : input_item) (paragraph_index : Z) (items : list item)
    : list str :=
  match items with
  | [] => []
  | it :: items' =>
      if dropped it then items_loop page paragraph_index items'
      else json_dumps (output_item page paragraph_index it)
           :: items_loop page (paragraph_index + 1) items'
  end.

(** The body of [for line in f], lines 122-161, for one page. *)
Definition page_lines (page : input_item) : list str :=
  items_loop page 0
    (extract_paragraphs_from_html tags_to_extract tags_to_remove
       inner_tags_to_remove (BeautifulSoup (html page))).

(** [main]: the lines printed for the pages of the input file. *)
Definition main (pages : list input_item) : list str :=
  flat_map page_lines pages.

End Main.

End ExtractorMain.

(** ** Notions used to state further properties *)

Module Notions.
Import Chunks Json Passages.

(** The characters of an ASCII text, back as a [string]. *)
Fixpoint unlit (s : str) : String.string :=
  match s with
  | [] => EmptyString
  | c :: s' => String (ascii_of_N c) (unlit s')
  end.

(** [s] without the prefix [p], when [s] starts with [p]. *)
Fixpoint strip_prefix (p s : str) : option str :=
  match p, s with
  | [], _ => Some s
  | a :: p', b :: s' => if (a =? b)%N then strip_prefix p' s' else None
  | _ :: _, [] => None
  end.

(** The characters of [s] before its first comma or closing brace. *)
Fixpoint number_chars (s : str) : str :=
  match s with
  | [] => []
  | c :: s' => if ((c =? 44) || (c =? rbrace))%N then [] else c :: number_chars s'
  end.

(** The id that a line of the passages carries, read off the line: the
    line is to start with an opening brace and the member [id], and the
    decimal integer written there is the id. *)
Definition passage_id_of (line : str) : option Z :=
  match strip_prefix ([lbrace; quote] ++ lit "id" ++ [quote] ++ lit ": ") line with
  | Some rest =>
      option_map Z.of_int (NilZero.int_of_string (unlit (number_chars rest)))
  | None => None
  end.

(** A string that does not start with whitespace. *)
Definition headed (s : str) : Prop :=
  forall c s', s = c :: s' -> isspace c = false.

(** A text of one line: without a newline. *)
Definition one_line (s : str) : Prop := Forall (fun c => c <> nl) s.

(** [ceil(a / b)] for [b > 0]. *)
Definition ceil_div (a b : Z) : Z := (a + b - 1) / b.

(** The runs of consecutive rows with the same title and section, the
    run being read and the row before given. *)
Fixpoint runs_from (current : list paragraph) (lastrow : paragraph)
    (data : list paragraph) : list (list paragraph) :=
  match data with
  | [] => [current]
  | row :: data' =>
      if key_changed row lastrow then current :: runs_from [row] row data'
      else runs_from (current ++ [row]) row data'
  end.

Definition runs (data : list paragraph) : list (list paragraph) :=
  match data with
  | [] => []
  | row0 :: data' => runs_from [row0] row0 data'
  end.

Definition same_key (a b : paragraph) : Prop :=
  title a = title b /\ section a = section b.

(** Every row of the run has the key of its neighbour, and so of all. *)
Definition one_key (run : list paragraph) : Prop :=
  forall a b, In a run -> In b run -> same_key a b.




(** The first element with the given name below the root of the
    document, in document order. *)
Definition descendant_named (name : string) (soup : Extractor.node)
    : option Extractor.node :=
  match soup with
  | Extractor.Tag _ contents => Extractor.find_first_in name contents
  | Extractor.NavigableString _ | Extractor.SpecialString _ _ => None
  end.

(** An item comes from a visited element that is extracted, is not a
    heading h3, h4 or dt, and whose text it holds normalized. *)
Definition paragraph_like {U : Unicodedata} (tags_to_extract : list String.string)
    (it : Extractor.item) : Prop :=
  Extractor.name_in (snd it) tags_to_extract = true
  /\ snd it <> "h3"%string /\ snd it <> "h4"%string /\ snd it <> "dt"%string
  /\ exists raw, snd (fst it) = Extractor.normalize_text raw.

(** [first_section soup anc first siblings]: [first] is a section
    element of the document before which, in document order, there is no
    section element; [siblings] are the nodes that follow it under its
    parent, and [anc] the names of its ancestors, the parent first.  The
    nodes [before] lie to the left of the path from the root to [first]. *)
Inductive first_section
    : Extractor.node -> list String.string -> Extractor.node
      -> list Extractor.node -> Prop :=
| first_section_here (name : String.string) (before : list Extractor.node)
    (first : Extractor.node) (siblings : list Extractor.node) :
    Forall (fun n => Extractor.find_first "section" n = None) before ->
    Extractor.is_section first = true ->
    first_section (Extractor.Tag name (before ++ first :: siblings))
      [name] first siblings
| first_section_below (name : String.string) (before : list Extractor.node)
    (n : Extractor.node) (after : list Extractor.node)
    (anc : list String.string) (first : Extractor.node)
    (siblings : list Extractor.node) :
    Forall (fun n => Extractor.find_first "section" n = None) before ->
    Extractor.is_section n = false ->
    first_section n anc first siblings ->
    first_section (Extractor.Tag name (before ++ n :: after))
      (anc ++ [name]) first siblings.

(** The h2 of a section: the text of its first h2 element. *)
Definition section_h2 (section : Extractor.node) : option str :=
  option_map Extractor.get_text (descendant_named "h2" section).

(** The h2 in force once the sections [walked] are entered, in this
    order: the h2 of the last of them that has one. *)
Definition h2_in_force (walked : list Extractor.node) : option str :=
  match filter Extractor.has_h2 (rev walked) with
  | section :: _ => section_h2 section
  | [] => None
  end.

(** An element of the walk for which an item is yielded: it is not
    skipped and is none of the headings h3, h4, dt. *)
Definition yields (v : Extractor.visit) : bool :=
  negb (Extractor.skip v)
  && negb (Extractor.name_in (Extractor.tag_name v) ["h3"; "h4"; "dt"]%string).

(** The h2 of the items, section after section: for every section, as
    many times the h2 in force in it as it has elements that yield an
    item.  [walked] are the sections before [rest]. *)
Fixpoint h2_column (tags_to_extract tags_to_remove inner_tags_to_remove
    anc : list String.string) (walked rest : list Extractor.node)
    : list (option str) :=
  match rest with
  | [] => []
  | section :: rest' =>
      repeat (h2_in_force (walked ++ [section]))
        (length (filter yields
                   (Extractor.section_visits tags_to_extract tags_to_remove
                      inner_tags_to_remove anc section)))
      ++ h2_column tags_to_extract tags_to_remove inner_tags_to_remove anc
           (walked ++ [section]) rest'
  end.



End Notions.

(** ** More sample inputs *)

Module MoreSamples.
Import Extractor ExtractorMain.

Local Open Scope string_scope.
Local Open Scope list_scope.

Definition default_arguments : arguments :=
  {| arg_tags_to_extract := None; arg_tags_to_remove := None;
     arg_inner_tags_to_remove := None; arg_sections_to_ignore := None;
     min_paragraph_length := 10; max_paragraph_length := 1000 |}.

(** A stand-in for the parser: every page parses to [nested_page]. *)
Definition parse_nested (html : str) : node := Samples.nested_page.

Definition life_page : input_item :=
  {| pageid := 5; revid := 7; title := lit "A"; html := lit "<html>" |}.

(** A document without a section element. *)
Definition plain_page : node :=
  Tag "[document]" [Tag "html" [Tag "body" [Tag "p" [Samples.txt "No section."]]]].

(** A section with a comment in its heading and a style sheet in its
    paragraph, and a section without a heading h2. *)
Definition life_section : node :=
  Tag "section" [
    Tag "h2" [Samples.txt "Life"; SpecialString Comment (lit " source ")];
    Tag "p" [Samples.txt "Born in 1900.";
             Tag "style" [SpecialString Stylesheet (lit ".a{color:red}")]]].

Definition work_section : node :=
  Tag "section" [Tag "p" [Samples.txt "More of the same."]].

Definition sectioned_page : node :=
  Tag "[document]" [
    Tag "html" [
      Tag "head" [Tag "title" [Samples.txt "A"]];
      Tag "body" [life_section; Samples.txt " "; work_section]]].

End MoreSamples.

(** * Properties *)

(** ** Strings *)

Module PyStrFacts.

Lemma erase_ws_app (a b : str) : erase_ws (a ++ b) = erase_ws a ++ erase_ws b.
Proof. apply filter_app. Qed.

Lemma erase_ws_rev (s : str) : erase_ws (rev s) = rev (erase_ws s).
Proof.
  induction s as [|c s IH]; simpl; [reflexivity|].
  rewrite erase_ws_app, IH. simpl.
  destruct (isspace c); simpl; [apply app_nil_r | reflexivity].
Qed.

Lemma erase_ws_lstrip (s : str) : erase_ws (lstrip s) = erase_ws s.
Proof.
  induction s as [|c s IH]; simpl; [reflexivity|].
  destruct (isspace c) eqn:E; simpl; [exact IH | now rewrite E].
Qed.

Lemma erase_ws_strip (s : str) : erase_ws (strip s) = erase_ws s.
Proof.
  unfold strip, rstrip.
  now rewrite erase_ws_rev, erase_ws_lstrip, erase_ws_rev, rev_involutive, erase_ws_lstrip.
Qed.

Lemma erase_ws_all_ws (s : str) : all_ws s -> erase_ws s = [].
Proof.
  induction 1 as [|c s Hc _ IH]; simpl; [reflexivity|]. now rewrite Hc.
Qed.

Lemma erase_ws_re_split_aux (in_run : bool) (s : str) :
  erase_ws (concat (re_split_newlines_aux in_run s)) = erase_ws s.
Proof.
  revert in_run; induction s as [|c s IH]; intros in_run; simpl; [reflexivity|].
  destruct (N.eqb_spec c nl) as [->|Hc].
  - change (isspace nl) with true; simpl.
    destruct in_run; simpl; apply IH.
  - specialize (IH false).
    destruct (re_split_newlines_aux false s) as [|f fs]; simpl in *;
      destruct (isspace c); simpl; now rewrite IH.
Qed.

Lemma erase_ws_re_split (s : str) :
  erase_ws (concat (re_split_newlines s)) = erase_ws s.
Proof.
  unfold re_split_newlines.
  pose proof (erase_ws_re_split_aux false s) as E.
  destruct (re_split_newlines_aux false s); [|exact E].
  simpl in *. exact E.
Qed.

Lemma lstrip_ws_prefix (s : str) : exists w, all_ws w /\ s = w ++ lstrip s.
Proof.
  induction s as [|c s (w & Hw & E)]; simpl.
  - exists []. split; [constructor | reflexivity].
  - destruct (isspace c) eqn:Ec.
    + exists (c :: w). split; [now constructor | simpl; now f_equal].
    + exists []. split; [constructor | reflexivity].
Qed.

Lemma lstrip_nonspace (s t : str) (c : char) :
  lstrip s = c :: t -> isspace c = false.
Proof.
  induction s as [|c' s IH]; simpl; [discriminate|].
  destruct (isspace c') eqn:E; [exact IH|]. now intros [= <- _].
Qed.

Lemma strip_trimmed (s : str) : trimmed (strip s).
Proof.
  intros s' c E. unfold strip, rstrip in E.
  destruct (lstrip (rev (lstrip s))) as [|c' t] eqn:El.
  - destruct s'; discriminate E.
  - simpl in E. apply app_inj_tail in E as [_ <-].
    exact (lstrip_nonspace _ _ _ El).
Qed.

Lemma strip_decompose (s : str) :
  exists l r, all_ws l /\ all_ws r /\ s = l ++ strip s ++ r.
Proof.
  destruct (lstrip_ws_prefix s) as (l & Hl & El).
  destruct (lstrip_ws_prefix (rev (lstrip s))) as (r & Hr & Er).
  exists l, (rev r). split; [exact Hl|]. split; [now apply Forall_rev|].
  rewrite El at 1. f_equal. unfold strip, rstrip.
  rewrite <- rev_app_distr, <- Er. now rewrite rev_involutive.
Qed.

Lemma join_nl_lines (lines : list str) :
  lines <> [] ->
  join [nl] lines ++ [nl] = concat (map (fun line => line ++ [nl]) lines).
Proof.
  induction lines as [|line lines IH]; intros Hne; [contradiction|].
  destruct lines as [|line2 lines].
  - simpl. now rewrite app_nil_r.
  - change (join [nl] (line :: line2 :: lines))
      with (line ++ [nl] ++ join [nl] (line2 :: lines)).
    specialize (IH ltac:(discriminate)).
    cbn [map concat] in *. rewrite <- IH.
    now rewrite <- !app_assoc.
Qed.

Lemma re_split_newlines_nonempty (s : str) : re_split_newlines s <> [].
Proof. unfold re_split_newlines. destruct (re_split_newlines_aux false s); discriminate. Qed.

(** *** [split] and [join] *)

Lemma split_ws_aux_words (cur s : str) :
  Forall (fun c => isspace c = false) cur ->
  Forall word (split_ws_aux cur s).
Proof.
  revert cur. induction s as [|c s IH]; intros cur Hcur; simpl.
  - destruct cur as [|c' cur']; constructor; [|constructor].
    split; [|now apply Forall_rev].
    simpl. intros E. now apply app_eq_nil in E as [_ [=]].
  - destruct (isspace c) eqn:Ec.
    + destruct cur as [|c' cur']; [now apply IH|].
      constructor; [|now apply IH].
      split; [|now apply Forall_rev].
      simpl. intros E. now apply app_eq_nil in E as [_ [=]].
    + apply IH. now constructor.
Qed.

Lemma split_ws_words (s : str) : Forall word (split_ws s).
Proof. apply split_ws_aux_words. constructor. Qed.

Lemma split_ws_aux_prefix (w cur rest : str) :
  Forall (fun c => isspace c = false) w ->
  split_ws_aux cur (w ++ rest) = split_ws_aux (rev w ++ cur) rest.
Proof.
  revert cur. induction w as [|c w IH]; intros cur Hw; simpl; [reflexivity|].
  inversion Hw as [|? ? Hc Hw']; subst. rewrite Hc, IH by exact Hw'.
  now rewrite <- app_assoc.
Qed.

Lemma split_ws_join (ws : list str) :
  Forall word ws -> split_ws (join [space] ws) = ws.
Proof.
  unfold split_ws. induction ws as [|w ws IH]; intros Hws; [reflexivity|].
  inversion Hws as [|? ? [Hne Hw] Hws']; subst.
  assert (rev w <> []) as Hrev
    by (intros E; apply Hne; now rewrite <- (rev_involutive w), E).
  destruct ws as [|w2 ws].
  - simpl. rewrite <- (app_nil_r w) at 1.
    rewrite split_ws_aux_prefix by exact Hw. rewrite app_nil_r. simpl.
    destruct (rev w) eqn:E; [contradiction|]. now rewrite <- E, rev_involutive.
  - change (join [space] (w :: w2 :: ws))
      with (w ++ space :: join [space] (w2 :: ws)).
    rewrite split_ws_aux_prefix by exact Hw. rewrite app_nil_r.
    simpl split_ws_aux. change (isspace space) with true. cbv iota.
    destruct (rev w) eqn:E; [contradiction|].
    rewrite <- E, rev_involutive. f_equal. now apply IH.
Qed.

Lemma lstrip_head (c : char) (s : str) :
  isspace c = false -> lstrip (c :: s) = c :: s.
Proof. intros Hc. simpl. now rewrite Hc. Qed.

Lemma word_head (w : str) :
  word w -> exists c w', w = c :: w' /\ isspace c = false.
Proof.
  intros [Hne Hw]. destruct w as [|c w']; [contradiction|].
  inversion Hw; subst. eauto.
Qed.

Lemma word_last (w : str) :
  word w -> exists w' c, w = w' ++ [c] /\ isspace c = false.
Proof.
  intros [Hne Hw]. destruct (exists_last Hne) as (w' & c & ->).
  apply Forall_app in Hw as [_ Hc]. inversion Hc; subst. eauto.
Qed.

Lemma join_last (ws : list str) :
  ws <> [] -> Forall word ws ->
  exists s c, join [space] ws = s ++ [c] /\ isspace c = false.
Proof.
  induction ws as [|w ws IH]; intros Hne Hws; [contradiction|].
  inversion Hws as [|? ? Hw Hws']; subst.
  destruct ws as [|w2 ws].
  - simpl. now apply word_last.
  - destruct IH as (s & c & E & Hc); [discriminate | exact Hws' |].
    exists (w ++ space :: s), c. split; [|exact Hc].
    change (join [space] (w :: w2 :: ws))
      with (w ++ space :: join [space] (w2 :: ws)).
    rewrite E, <- app_assoc. reflexivity.
Qed.

Lemma join_head (ws : list str) :
  ws <> [] -> Forall word ws ->
  exists c s, join [space] ws = c :: s /\ isspace c = false.
Proof.
  intros Hne Hws. destruct ws as [|w ws]; [contradiction|].
  inversion Hws as [|? ? Hw _]; subst.
  destruct (word_head w Hw) as (c & w' & -> & Hc).
  exists c. destruct ws; simpl; eauto.
Qed.

Lemma strip_join (ws : list str) :
  Forall word ws -> strip (join [space] ws) = join [space] ws.
Proof.
  intros Hws. destruct ws as [|w ws]; [reflexivity|].
  destruct (join_head (w :: ws)) as (c & s & E & Hc); [discriminate | exact Hws |].
  destruct (join_last (w :: ws)) as (s' & c' & E' & Hc'); [discriminate | exact Hws |].
  unfold strip, rstrip. rewrite E, lstrip_head by exact Hc.
  rewrite <- E, E', rev_app_distr. simpl rev at 2. simpl app.
  rewrite lstrip_head by exact Hc'.
  change (c' :: rev s') with (rev [c'] ++ rev s').
  now rewrite <- rev_app_distr, rev_involutive.
Qed.

Lemma filter_all {A : Type} (f : A -> bool) (l : list A) :
  forallb f l = true -> filter f l = l.
Proof.
  induction l as [|x l IH]; simpl; [reflexivity|].
  intros H. apply andb_true_iff in H as [-> H]. now rewrite IH.
Qed.

End PyStrFacts.

(** ** The chunk balancer *)

Module ChunksFacts.
Import Chunks PyStrFacts.

(** *** Arithmetic of the chunk count *)

Lemma py_round_le (q : Q) (K : Z) : (q <= inject_Z K)%Q -> py_round q <= K.
Proof.
  intros Hq. unfold py_round.
  pose proof (Qfloor_resp_le _ _ Hq) as Hf. rewrite Qfloor_Z in Hf.
  destruct (Z.eq_dec (Qfloor q) K) as [E|Hne].
  - destruct (_ ?= _)%Q eqn:C; [apply Qeq_alt in C | lia | apply Qgt_alt in C];
      rewrite E in C; lra.
  - destruct (_ ?= _)%Q; [destruct (Z.even _)| |]; lia.
Qed.

Lemma py_round_nonneg (q : Q) : (0 <= q)%Q -> 0 <= py_round q.
Proof.
  intros Hq. unfold py_round.
  pose proof (Qfloor_resp_le _ _ Hq) as Hf. change (Qfloor 0) with 0 in Hf.
  destruct (_ ?= _)%Q; [destruct (Z.even _)| |]; lia.
Qed.

Lemma pow2_pos (k : Z) : 0 <= k -> (0 < inject_Z (2 ^ k))%Q.
Proof.
  intros Hk. change 0%Q with (inject_Z 0). rewrite <- Zlt_Qlt.
  apply Z.pow_pos_nonneg; lia.
Qed.

Lemma scale2_nonneg (x : Q) (k : Z) : (0 <= x)%Q -> (0 <= scale2 x k)%Q.
Proof.
  intros Hx. unfold scale2. destruct (Z.leb_spec 0 k).
  - apply Qmult_le_0_compat; [exact Hx|]. apply Qlt_le_weak, pow2_pos. lia.
  - apply Qle_shift_div_l; [apply pow2_pos; lia|]. lra.
Qed.

Lemma floor_log2_le_0 (x : Q) : (0 < x)%Q -> (x <= 1)%Q -> floor_log2 x <= 0.
Proof.
  intros Hpos Hle. unfold floor_log2.
  assert (0 < Qnum x) as Hn by (unfold Qlt in Hpos; simpl in Hpos; lia).
  assert (Qnum x <= Zpos (Qden x)) as Hd by (unfold Qle in Hle; simpl in Hle; lia).
  pose proof (Z.log2_le_mono _ _ Hd).
  destruct (Qle_bool _ _); lia.
Qed.

(** Rounding does not take a number of (0, 1] above 1, nor a number that
    is not negative below 0. *)
Lemma binary64_le_1 (x : Q) : (0 < x)%Q -> (x <= 1)%Q -> (binary64 x <= 1)%Q.
Proof.
  intros Hpos Hle. unfold binary64.
  assert (0 < Qnum x) as Hn by (unfold Qlt in Hpos; simpl in Hpos; lia).
  destruct (Qnum x) as [|p|p] eqn:E; try lia.
  pose proof (floor_log2_le_0 x Hpos Hle) as He.
  set (e := floor_log2 x - 52) in *.
  assert (e < 0) as Hneg by lia.
  assert (0 < inject_Z (2 ^ (- e)))%Q as Hp2 by (apply pow2_pos; lia).
  assert (py_round (scale2 x (- e)) <= 2 ^ (- e)) as Hm.
  { apply py_round_le. unfold scale2.
    destruct (Z.leb_spec 0 (- e)); [|lia].
    rewrite <- (Qmult_1_l (inject_Z (2 ^ (- e)))) at 2.
    apply Qmult_le_compat_r; [exact Hle | now apply Qlt_le_weak]. }
  unfold scale2. destruct (Z.leb_spec 0 e); [lia|].
  apply Qle_shift_div_r; [exact Hp2|].
  rewrite Qmult_1_l. now rewrite <- Zle_Qle.
Qed.

Lemma binary64_nonneg (x : Q) : (0 <= x)%Q -> (0 <= binary64 x)%Q.
Proof.
  intros Hx. unfold binary64.
  destruct (Qnum x) as [|p|p] eqn:E.
  - lra.
  - apply scale2_nonneg. change 0%Q with (inject_Z 0). rewrite <- Zle_Qle.
    apply py_round_nonneg, scale2_nonneg, Hx.
  - exfalso. unfold Qle in Hx. simpl in Hx. lia.
Qed.

(** *** The float quotient against the exact one *)

Lemma two_neq_0 : ~ (2 == 0)%Q.
Proof. discriminate. Qed.

Lemma scale2_Qpower (x : Q) (k : Z) : (scale2 x k == x * 2 ^ k)%Q.
Proof.
  unfold scale2. destruct (Z.leb_spec 0 k) as [Hk|Hk].
  - now rewrite Zpower_Qpower.
  - rewrite Zpower_Qpower by lia. rewrite Qpower_opp. unfold Qdiv.
    now rewrite Qinv_involutive.
Qed.

Lemma pow2_gt_0 (k : Z) : (0 < 2 ^ k)%Q.
Proof. apply Qpower_0_lt. reflexivity. Qed.

Lemma py_round_ge (q : Q) : (q - (1 # 2) <= inject_Z (py_round q))%Q.
Proof.
  unfold py_round.
  pose proof (Qfloor_le q) as Hlo. pose proof (Qlt_floor q) as Hhi.
  rewrite inject_Z_plus in Hhi.
  destruct (_ ?= _)%Q eqn:C;
    [apply Qeq_alt in C | apply Qlt_alt in C | apply Qgt_alt in C].
  - destruct (Z.even _); rewrite ?inject_Z_plus; lra.
  - lra.
  - rewrite inject_Z_plus. lra.
Qed.

Lemma pow2_floor (x : Q) : (0 < x)%Q -> (2 ^ floor_log2 x <= x)%Q.
Proof.
  intros Hpos. unfold floor_log2.
  set (a := Qnum x). set (b := Qden x).
  destruct (Qle_bool _ _) eqn:E.
  - apply Qle_bool_iff in E. rewrite scale2_Qpower in E. lra.
  - clear E.
    assert (0 < a) as Ha by (unfold Qlt in Hpos; simpl in Hpos; subst a; lia).
    pose proof (Z.log2_spec a Ha) as [Hla _].
    pose proof (Z.log2_spec (Zpos b) ltac:(lia)) as [_ Hlb].
    pose proof (Z.log2_nonneg a). pose proof (Z.log2_nonneg (Zpos b)).
    replace (Z.log2 a - Z.log2 (Z.pos b) - 1)
      with (Z.log2 a + - (Z.log2 (Z.pos b) + 1)) by lia.
    rewrite Qpower_plus by exact two_neq_0. rewrite Qpower_opp.
    assert (2 ^ Z.log2 a == inject_Z (2 ^ Z.log2 a))%Q as ->
      by (now rewrite Zpower_Qpower).
    assert (2 ^ (Z.log2 (Z.pos b) + 1) == inject_Z (2 ^ (Z.log2 (Z.pos b) + 1)))%Q as ->
      by (rewrite Zpower_Qpower by lia; reflexivity).
    assert (x == inject_Z a / inject_Z (Zpos b))%Q as ->
      by (destruct x; subst a b; simpl; apply Qmake_Qdiv).
    rewrite Zle_Qle in Hla. rewrite Zlt_Qlt in Hlb.
    assert (0 < inject_Z (2 ^ (Z.log2 (Z.pos b) + 1)))%Q
      by (rewrite Zpower_Qpower by lia; apply pow2_gt_0).
    assert (0 < inject_Z (Z.pos b))%Q by reflexivity.
    assert (0 < inject_Z (2 ^ Z.log2 a))%Q
      by (rewrite Zpower_Qpower by lia; apply pow2_gt_0).
    apply Qle_shift_div_l; [assumption|].
    unfold Qdiv. rewrite <- Qmult_assoc, (Qmult_comm (/ _)), Qmult_assoc.
    apply Qle_shift_div_r; [assumption|].
    apply Qle_trans with (inject_Z a * inject_Z (Zpos b))%Q.
    + apply Qmult_le_compat_r; [assumption | now apply Qlt_le_weak].
    + rewrite !(Qmult_comm (inject_Z a)).
      apply Qmult_le_compat_r; [now apply Qlt_le_weak|].
      apply Qle_trans with (inject_Z (2 ^ Z.log2 a)); [now apply Qlt_le_weak | assumption].
Qed.

Lemma binary64_value (x : Q) :
  (0 < x)%Q ->
  (binary64 x
   == inject_Z (py_round (scale2 x (- (floor_log2 x - 52)))) * 2 ^ (floor_log2 x - 52))%Q.
Proof.
  intros Hpos. unfold binary64.
  assert (0 < Qnum x) as Hn by (unfold Qlt in Hpos; simpl in Hpos; lia).
  destruct (Qnum x) as [|p|p] eqn:E; try lia.
  apply scale2_Qpower.
Qed.

Lemma pow2_cancel (e : Z) : (2 ^ (- e) * 2 ^ e == 1)%Q.
Proof.
  rewrite <- Qpower_plus by exact two_neq_0.
  replace (- e + e) with 0 by lia. reflexivity.
Qed.

Lemma binary64_le_int (x : Q) (M : Z) :
  (0 < x)%Q -> (x < inject_Z (2 ^ 53))%Q -> (x <= inject_Z M)%Q ->
  (binary64 x <= inject_Z M)%Q.
Proof.
  intros Hpos Hsmall Hle. rewrite (binary64_value x Hpos).
  pose proof (pow2_floor x Hpos) as Hfl.
  set (e := floor_log2 x - 52) in *.
  assert (e <= 0) as He.
  { assert (2 ^ floor_log2 x < 2 ^ 53)%Q as Hlt.
    { eapply Qle_lt_trans; [exact Hfl|].
      rewrite Zpower_Qpower in Hsmall by lia. exact Hsmall. }
    apply Qpower_lt_compat_l_inv in Hlt; [lia | reflexivity]. }
  pose proof (pow2_gt_0 e) as HE. pose proof (pow2_gt_0 (- e)) as HE'.
  assert (py_round (scale2 x (- e)) <= M * 2 ^ (- e)) as Hm.
  { apply py_round_le. rewrite scale2_Qpower, inject_Z_mult, Zpower_Qpower by lia.
    apply Qmult_le_compat_r; [exact Hle | now apply Qlt_le_weak]. }
  rewrite Zle_Qle, inject_Z_mult, Zpower_Qpower in Hm by lia.
  apply Qle_trans with (inject_Z M * inject_Z 2 ^ (- e) * 2 ^ e)%Q.
  - apply Qmult_le_compat_r; [exact Hm | now apply Qlt_le_weak].
  - rewrite <- Qmult_assoc. change (inject_Z 2) with 2%Q.
    rewrite pow2_cancel. lra.
Qed.

Lemma binary64_gt_int (T n M : Z) :
  0 < T < 2 ^ 53 -> 1 <= n -> M * n < T ->
  (inject_Z M < true_div T n)%Q.
Proof.
  intros [HT0 HT] Hn Hlt. unfold true_div.
  set (x := (inject_Z T / inject_Z n)%Q).
  set (invn := (/ inject_Z n)%Q).
  assert (0 < inject_Z n)%Q as Hnq
    by (change 0%Q with (inject_Z 0); rewrite <- Zlt_Qlt; lia).
  assert (0 < invn)%Q as Hinv by (now apply Qinv_lt_0_compat).
  assert (inject_Z n * invn == 1)%Q as Hone
    by (unfold invn; apply Qmult_inv_r; lra).
  assert (0 < x)%Q as Hpos.
  { unfold x, Qdiv. fold invn. apply Qmult_lt_0_compat; [|exact Hinv].
    change 0%Q with (inject_Z 0); rewrite <- Zlt_Qlt; lia. }
  assert (x < inject_Z (2 ^ 53) * invn)%Q as Hx1.
  { unfold x, Qdiv. fold invn. apply Qmult_lt_compat_r; [exact Hinv|].
    now rewrite <- Zlt_Qlt. }
  assert (inject_Z M + invn <= x)%Q as Hx2.
  { unfold x, Qdiv. fold invn.
    apply Qle_trans with (inject_Z (M * n + 1) * invn)%Q.
    - rewrite inject_Z_plus, inject_Z_mult.
      setoid_replace ((inject_Z M * inject_Z n + inject_Z 1) * invn)%Q
        with (inject_Z M * (inject_Z n * invn) + invn)%Q by ring.
      rewrite Hone. lra.
    - apply Qmult_le_compat_r; [|now apply Qlt_le_weak].
      rewrite <- Zle_Qle. lia. }
  rewrite (binary64_value x Hpos).
  pose proof (pow2_floor x Hpos) as Hfl.
  set (e := floor_log2 x - 52) in *.
  pose proof (pow2_gt_0 e) as HE.
  pose proof (py_round_ge (scale2 x (- e))) as Hm.
  set (m := inject_Z (py_round (scale2 x (- e)))) in *.
  clearbody m. rewrite scale2_Qpower in Hm.
  assert (x - (1 # 2) * 2 ^ e <= m * 2 ^ e)%Q as Hv.
  { apply Qle_trans with ((x * 2 ^ (- e) - (1 # 2)) * 2 ^ e)%Q.
    - setoid_replace ((x * 2 ^ (- e) - (1 # 2)) * 2 ^ e)%Q
        with (x * (2 ^ (- e) * 2 ^ e) - (1 # 2) * 2 ^ e)%Q by ring.
      rewrite pow2_cancel. lra.
    - apply Qmult_le_compat_r; [exact Hm | now apply Qlt_le_weak]. }
  assert (2 ^ e * inject_Z (2 ^ 52) <= x)%Q as HEx.
  { rewrite Zpower_Qpower by lia. change (inject_Z 2) with 2%Q.
    rewrite <- Qpower_plus by exact two_neq_0.
    replace (e + 52) with (floor_log2 x) by (subst e; lia). exact Hfl. }
  change (inject_Z (2 ^ 52)) with (4503599627370496 # 1)%Q in HEx.
  change (inject_Z (2 ^ 53)) with (9007199254740992 # 1)%Q in Hx1.
  lra.
Qed.

Lemma exceeds_exact (T n M : Z) :
  0 < T < 2 ^ 53 -> 1 <= n ->
  exceeds (true_div T n) M = negb (T <=? M * n).
Proof.
  intros HT Hn. unfold exceeds. f_equal.
  assert (0 < inject_Z n)%Q as Hnq
    by (change 0%Q with (inject_Z 0); rewrite <- Zlt_Qlt; lia).
  destruct (Z.leb_spec T (M * n)) as [Hle|Hgt].
  - apply Qle_bool_iff. unfold true_div. apply binary64_le_int.
    + apply Qlt_shift_div_l; [exact Hnq|]. rewrite Qmult_0_l.
      change 0%Q with (inject_Z 0); rewrite <- Zlt_Qlt; lia.
    + apply Qlt_shift_div_r; [exact Hnq|]. rewrite <- inject_Z_mult, <- Zlt_Qlt. nia.
    + apply Qle_shift_div_r; [exact Hnq|]. rewrite <- inject_Z_mult, <- Zle_Qle. exact Hle.
  - destruct (Qle_bool _ _) eqn:E; [|reflexivity]. exfalso.
    apply Qle_bool_iff in E.
    pose proof (binary64_gt_int T n M HT Hn Hgt). lra.
Qed.

(** *** The loop on the chunk count *)

Lemma exceeds_false_iff (x : Q) (max_nchar : Z) :
  exceeds x max_nchar = false <-> (x <= inject_Z max_nchar)%Q.
Proof.
  unfold exceeds. rewrite negb_false_iff. apply Qle_bool_iff.
Qed.

(** Once the chunks are as many as the characters, the size of a chunk is
    at most 1 and the loop stops. *)
Lemma exceeds_small (total_nchar max_nchar nchunk : Z) :
  1 <= max_nchar -> 0 < total_nchar <= nchunk ->
  exceeds (true_div total_nchar nchunk) max_nchar = false.
Proof.
  intros HM [HT Hn]. apply exceeds_false_iff.
  assert (0 < inject_Z nchunk)%Q as Hnq
    by (change 0%Q with (inject_Z 0); rewrite <- Zlt_Qlt; lia).
  apply Qle_trans with 1%Q.
  - apply binary64_le_1.
    + apply Qlt_shift_div_l; [exact Hnq|]. rewrite Qmult_0_l.
      change 0%Q with (inject_Z 0). rewrite <- Zlt_Qlt. exact HT.
    + apply Qle_shift_div_r; [exact Hnq|]. rewrite Qmult_1_l.
      now rewrite <- Zle_Qle.
  - change 1%Q with (inject_Z 1). now rewrite <- Zle_Qle.
Qed.

(** Under a negative budget the size of a chunk always exceeds it. *)
Lemma exceeds_negative (total_nchar max_nchar nchunk : Z) :
  max_nchar < 0 -> 0 <= total_nchar -> 1 <= nchunk ->
  exceeds (true_div total_nchar nchunk) max_nchar = true.
Proof.
  intros HM HT Hn. unfold exceeds. apply negb_true_iff.
  destruct (Qle_bool _ _) eqn:E; [|reflexivity]. exfalso.
  apply Qle_bool_iff in E.
  assert (0 <= true_div total_nchar nchunk)%Q as Hpos.
  { apply binary64_nonneg. apply Qle_shift_div_l.
    - change 0%Q with (inject_Z 0). rewrite <- Zlt_Qlt. lia.
    - rewrite Qmult_0_l. change 0%Q with (inject_Z 0). now rewrite <- Zle_Qle. }
  assert (inject_Z max_nchar < 0)%Q
    by (change 0%Q with (inject_Z 0); now rewrite <- Zlt_Qlt).
  lra.
Qed.

Lemma grow_nchunk_some (fuel : nat) (total_nchar max_nchar nchunk : Z) :
  1 <= max_nchar -> 0 < total_nchar -> 1 <= nchunk ->
  (0 < fuel)%nat ->
  total_nchar < nchunk + Z.of_nat fuel ->
  exists n,
    grow_nchunk fuel total_nchar max_nchar nchunk = Some n
    /\ nchunk <= n
    /\ exceeds (true_div total_nchar n) max_nchar = false
    /\ (forall k, nchunk <= k < n ->
          exceeds (true_div total_nchar k) max_nchar = true).
Proof.
  intros HM HT. revert nchunk.
  induction fuel as [|fuel IH]; intros nchunk Hn Hpos Hfuel; simpl; [lia|].
  destruct (exceeds (true_div total_nchar nchunk) max_nchar) eqn:G.
  - assert (nchunk < total_nchar) as Hlt.
    { destruct (Z.lt_ge_cases nchunk total_nchar) as [|Hge]; [assumption|].
      rewrite exceeds_small in G by lia. discriminate. }
    destruct (IH (nchunk + 1)) as (n & E & Hge & Hfit & Hmin); [lia | lia | lia |].
    exists n. repeat split; [exact E | lia | exact Hfit |].
    intros k Hk. destruct (Z.eq_dec k nchunk) as [->|Hne]; [exact G|].
    apply Hmin. lia.
  - exists nchunk. repeat split; [lia | exact G | lia].
Qed.

Lemma grow_nchunk_more_fuel (fuel extra : nat) (total_nchar max_nchar nchunk n : Z) :
  grow_nchunk fuel total_nchar max_nchar nchunk = Some n ->
  grow_nchunk (fuel + extra) total_nchar max_nchar nchunk = Some n.
Proof.
  revert nchunk. induction fuel as [|fuel IH]; intros nchunk; simpl; [discriminate|].
  destruct (exceeds _ _); [apply IH | trivial].
Qed.

Lemma grow_nchunk_never (fuel : nat) (total_nchar max_nchar nchunk : Z) :
  max_nchar < 0 -> 0 <= total_nchar -> 1 <= nchunk ->
  grow_nchunk fuel total_nchar max_nchar nchunk = None.
Proof.
  intros HM HT. revert nchunk.
  induction fuel as [|fuel IH]; intros nchunk Hn; simpl; [reflexivity|].
  rewrite exceeds_negative by lia. apply IH. lia.
Qed.

(** [binary64] against the division and the product of IEEE 754 binary64,
    on quotients of the kind the source forms. *)
Example true_div_is_binary64 :
  forallb
    (fun ab => same_value
                 (SFdiv 53 1024 (spec_of_int (fst ab)) (spec_of_int (snd ab)))
                 (true_div (fst ab) (snd ab)))
    [(2000, 3); (2000, 750); (25, 3); (25, 10); (1, 49); (1, 3); (2, 3); (7, 1);
     (4000, 6); (31, 4); (123456789, 1000); (1000000000000001, 7);
     (9007199254740993, 1); (9007199254740995, 2); (3, 1000000); (5, -750);
     (-7, 3)]
  = true.
Proof. vm_compute. reflexivity. Qed.

Example float_mul_is_binary64 :
  forallb
    (fun abk =>
       same_value
         (SFmul 53 1024
            (SFdiv 53 1024 (spec_of_int (fst (fst abk))) (spec_of_int (snd (fst abk))))
            (spec_of_int (snd abk)))
         (float_mul (true_div (fst (fst abk)) (snd (fst abk))) (float_of_int (snd abk))))
    [(2000, 3, 1); (2000, 3, 2); (2000, 3, 3); (25, 3, 2); (1, 49, 49); (1, 3, 3);
     (4000, 6, 3); (10, 3, 3); (31, 4, 3); (1000000000000001, 7, 5)]
  = true.
Proof. vm_compute. reflexivity. Qed.

(** A product that rounding keeps below the exact one. *)
Example float_mul_rounds :
  Qeq_bool (float_mul (true_div 1 49) (float_of_int 49)) 1 = false.
Proof. vm_compute. reflexivity. Qed.

Lemma estimate_nchunk_pos (total_nchar max_nchar : Z) :
  1 <= estimate_nchunk total_nchar max_nchar.
Proof. unfold estimate_nchunk. lia. Qed.

(** *** What the chunks hold *)

Lemma concat_append_to_last (sentences : list str) (suffix : str) :
  concat (append_to_last sentences suffix)
  = match sentences with [] => [] | _ => concat sentences ++ suffix end.
Proof.
  induction sentences as [|s rest IH]; [reflexivity|].
  destruct rest as [|s' rest].
  - simpl. now rewrite !app_nil_r.
  - change (append_to_last (s :: s' :: rest) suffix)
      with (s :: append_to_last (s' :: rest) suffix).
    rewrite (concat_cons s), IH. simpl. now rewrite !app_assoc.
Qed.

Lemma erase_ws_append_newline (sentences : list str) :
  erase_ws (concat (append_to_last sentences [nl])) = erase_ws (concat sentences).
Proof.
  rewrite concat_append_to_last. destruct sentences; [reflexivity|].
  rewrite erase_ws_app. change (erase_ws [nl]) with (@nil char).
  apply app_nil_r.
Qed.

Lemma pack_step_content (nchar_chunk : Q) (nchunk : Z) (st : pack_state) (sentence : str) :
  content (pack_step nchar_chunk nchunk st sentence) = content st ++ erase_ws sentence.
Proof.
  unfold pack_step, content.
  destruct (Qle_bool _ _); [destruct (negb _)|]; simpl;
    rewrite ?concat_app, ?erase_ws_app; simpl;
    rewrite ?app_nil_r, ?erase_ws_strip, ?app_assoc; reflexivity.
Qed.

Lemma pack_finish_content (st : pack_state) :
  erase_ws (concat (pack_finish st)) = content st.
Proof.
  unfold pack_finish, content.
  destruct (chunk_text st) as [|c ct] eqn:E; simpl is_empty; cbv iota.
  - simpl. now rewrite app_nil_r.
  - rewrite concat_app, erase_ws_app. simpl concat.
    now rewrite app_nil_r, erase_ws_strip.
Qed.

Lemma pack_fold_content (nchar_chunk : Q) (nchunk : Z) (sentences : list str)
    (st : pack_state) :
  content (fold_left (pack_step nchar_chunk nchunk) sentences st)
  = content st ++ erase_ws (concat sentences).
Proof.
  revert st. induction sentences as [|s ss IH]; intros st; simpl.
  - now rewrite app_nil_r.
  - now rewrite IH, pack_step_content, erase_ws_app, app_assoc.
Qed.

Lemma pack_content (nchar_chunk : Q) (nchunk : Z) (sentences : list str) :
  erase_ws (concat (pack nchar_chunk nchunk sentences)) = erase_ws (concat sentences).
Proof.
  unfold pack. now rewrite pack_finish_content, pack_fold_content.
Qed.

(** *** The chunks next to the text *)

Lemma reconstructs_pad (w : str) (chunks : list str) (text : str) :
  all_ws w -> reconstructs chunks text -> reconstructs chunks (w ++ text).
Proof.
  intros Hw Hrec. destruct Hrec as [w'|w' chunk chunks rest Hw' Hrest].
  - constructor. now apply Forall_app.
  - rewrite app_assoc. constructor; [now apply Forall_app | exact Hrest].
Qed.

Lemma reconstructs_app (chunks1 chunks2 : list str) (text1 text2 : str) :
  reconstructs chunks1 text1 -> reconstructs chunks2 text2 ->
  reconstructs (chunks1 ++ chunks2) (text1 ++ text2).
Proof.
  intros H1 H2. induction H1 as [w Hw|w chunk chunks rest Hw _ IH]; simpl.
  - now apply reconstructs_pad.
  - rewrite <- !app_assoc. now constructor.
Qed.

Lemma reconstructs_strip (s : str) : reconstructs [strip s] s.
Proof.
  destruct (strip_decompose s) as (l & r & Hl & Hr & E).
  rewrite E at 2. constructor; [exact Hl|]. now constructor.
Qed.

Lemma reconstructs_drop_last (chunks : list str) (text : str) :
  reconstructs chunks text ->
  forall text' c, text = text' ++ [c] -> isspace c = true ->
  Forall trimmed chunks -> reconstructs chunks text'.
Proof.
  induction 1 as [w Hw|w chunk chunks rest Hw Hrest IH]; intros text' c E Hc Htrim.
  - constructor. subst w. now apply Forall_app in Hw as [Hw _].
  - inversion Htrim as [|? ? Hchunk Htrim']; subst.
    destruct (list_eq_dec N.eq_dec rest []) as [->|Hne].
    + rewrite app_nil_r in E.
      destruct (list_eq_dec N.eq_dec chunk []) as [->|Hne'].
      * rewrite app_nil_r in E. subst w.
        apply Forall_app in Hw as [Hw _].
        rewrite <- (app_nil_r text'). change [] with ([] ++ @nil char) at 2.
        now constructor.
      * destruct (exists_last Hne') as (chunk' & c' & ->).
        rewrite app_assoc in E. apply app_inj_tail in E as [_ ->].
        specialize (Hchunk chunk' c eq_refl). congruence.
    + destruct (exists_last Hne) as (rest' & c' & ->).
      rewrite !app_assoc in E. apply app_inj_tail in E as [<- ->].
      rewrite <- app_assoc. constructor; [exact Hw|].
      now apply (IH rest' c).
Qed.

Lemma pack_step_trimmed (nchar_chunk : Q) (nchunk : Z) (st : pack_state) (sentence : str) :
  Forall trimmed (chunks st) ->
  Forall trimmed (chunks (pack_step nchar_chunk nchunk st sentence)).
Proof.
  unfold pack_step. intros Hst.
  destruct (Qle_bool _ _); [destruct (negb _)|]; simpl; try exact Hst.
  apply Forall_app. split; [exact Hst|].
  constructor; [apply strip_trimmed | constructor].
Qed.

Lemma pack_trimmed (nchar_chunk : Q) (nchunk : Z) (sentences : list str) :
  Forall trimmed (pack nchar_chunk nchunk sentences).
Proof.
  unfold pack.
  assert (forall st, Forall trimmed (chunks st) ->
            Forall trimmed
              (chunks (fold_left (pack_step nchar_chunk nchunk) sentences st))) as Hfold.
  { induction sentences as [|s ss IH]; intros st Hst; simpl; [exact Hst|].
    now apply IH, pack_step_trimmed. }
  specialize (Hfold pack_init (Forall_nil _)).
  unfold pack_finish. destruct (is_empty _); [exact Hfold|].
  apply Forall_app. split; [exact Hfold|].
  constructor; [apply strip_trimmed | constructor].
Qed.

Lemma pack_step_reconstructs (nchar_chunk : Q) (nchunk : Z) (st : pack_state)
    (sentence closed : str) :
  reconstructs (chunks st) closed ->
  exists closed',
    reconstructs (chunks (pack_step nchar_chunk nchunk st sentence)) closed'
    /\ closed' ++ chunk_text (pack_step nchar_chunk nchunk st sentence)
       = closed ++ chunk_text st ++ sentence.
Proof.
  intros Hst. unfold pack_step.
  destruct (Qle_bool _ _); [destruct (negb _)|]; simpl.
  - exists (closed ++ chunk_text st). split.
    + apply reconstructs_app; [exact Hst | apply reconstructs_strip].
    + now rewrite <- app_assoc.
  - exists closed. split; [exact Hst | reflexivity].
  - exists closed. split; [exact Hst | reflexivity].
Qed.

Lemma pack_fold_reconstructs (nchar_chunk : Q) (nchunk : Z) (sentences : list str)
    (st : pack_state) (closed : str) :
  reconstructs (chunks st) closed ->
  reconstructs (pack_finish (fold_left (pack_step nchar_chunk nchunk) sentences st))
    (closed ++ chunk_text st ++ concat sentences).
Proof.
  revert st closed. induction sentences as [|s ss IH]; intros st closed Hst.
  - simpl. rewrite app_nil_r. unfold pack_finish.
    destruct (chunk_text st) as [|c ct] eqn:E; simpl is_empty; cbv iota.
    + now rewrite app_nil_r.
    + apply reconstructs_app; [exact Hst | apply reconstructs_strip].
  - destruct (pack_step_reconstructs nchar_chunk nchunk st s closed Hst)
      as (closed' & Hst' & E).
    specialize (IH _ _ Hst'). rewrite app_assoc, E in IH.
    simpl fold_left. simpl concat.
    now rewrite <- !app_assoc in IH.
Qed.

Lemma pack_reconstructs (nchar_chunk : Q) (nchunk : Z) (sentences : list str) :
  reconstructs (pack nchar_chunk nchunk sentences) (concat sentences).
Proof.
  apply (pack_fold_reconstructs nchar_chunk nchunk sentences pack_init []).
  constructor. constructor.
Qed.

(** *** The sentences next to the text *)

Section Content.

Variable splitter : str -> list str.
Hypothesis contract : splitter_contract splitter.

Lemma erase_ws_sentences_fold (lines : list str) (acc : list str) :
  erase_ws (concat (fold_left
     (fun sentences line => append_to_last (sentences ++ splitter line) [nl])
     lines acc))
  = erase_ws (concat acc) ++ erase_ws (concat lines).
Proof.
  revert acc. induction lines as [|line lines IH]; intros acc; simpl.
  - now rewrite app_nil_r.
  - rewrite IH, erase_ws_append_newline, concat_app, contract, !erase_ws_app.
    now rewrite app_assoc.
Qed.

Lemma append_to_last_nonempty (sentences : list str) (suffix : str) :
  sentences <> [] -> append_to_last sentences suffix <> [].
Proof.
  destruct sentences as [|s [|s' rest]]; [contradiction | discriminate..].
Qed.

(** The sentences, put end to end, are the lines with a newline after
    each, short of the newlines of the empty lines met before the first
    sentence. *)
Lemma sentences_fold_concat (lines : list str) (acc : list str) :
  exists lead,
    all_ws lead
    /\ (acc <> [] -> lead = [])
    /\ lead ++ concat (fold_left
          (fun sentences line => append_to_last (sentences ++ splitter line) [nl])
          lines acc)
       = concat acc ++ concat (map (fun line => line ++ [nl]) lines).
Proof.
  revert acc. induction lines as [|line lines IH]; intros acc.
  - exists []. simpl. rewrite app_nil_r. repeat split. constructor.
  - simpl fold_left.
    destruct (IH (append_to_last (acc ++ splitter line) [nl]))
      as (lead & Hws & Hlead & E).
    rewrite concat_append_to_last in E.
    destruct (acc ++ splitter line) as [|s0 ss] eqn:Eacc.
    + apply app_eq_nil in Eacc as [-> Hsplit].
      assert (line = []) as -> by (now rewrite <- (contract line), Hsplit).
      exists (nl :: lead). split; [now constructor|]. split; [congruence|].
      simpl. f_equal. exact E.
    + assert (lead = []) as ->
        by (apply Hlead, append_to_last_nonempty; discriminate).
      exists []. split; [constructor|]. split; [reflexivity|].
      cbv iota in E. rewrite !app_nil_l in *. rewrite E, <- Eacc, concat_app, contract.
      cbn [map concat]. now rewrite <- !app_assoc.
Qed.

Lemma split_sentences_reconstructs (chunks : list str) (text : str) :
  Forall trimmed chunks ->
  reconstructs chunks (concat (split_sentences splitter text)) ->
  reconstructs chunks (collapse_newlines text).
Proof.
  intros Htrim Hrec. unfold split_sentences in Hrec.
  destruct (sentences_fold_concat (re_split_newlines text) []) as (lead & Hws & _ & E).
  apply (reconstructs_pad lead) in Hrec; [|exact Hws].
  rewrite E in Hrec. simpl app in Hrec.
  rewrite <- join_nl_lines in Hrec by apply re_split_newlines_nonempty.
  now apply (reconstructs_drop_last _ _ Hrec (collapse_newlines text) nl).
Qed.

Lemma erase_ws_split_sentences (text : str) :
  erase_ws (concat (split_sentences splitter text)) = erase_ws text.
Proof.
  unfold split_sentences. rewrite erase_ws_sentences_fold. simpl.
  apply erase_ws_re_split.
Qed.

End Content.

(** *** How many chunks there are *)

Lemma pack_step_counted (nchar_chunk : Q) (nchunk : Z) (st : pack_state) (sentence : str) :
  counted nchunk st -> counted nchunk (pack_step nchar_chunk nchunk st sentence).
Proof.
  unfold counted, pack_step. intros [Hle Hlen].
  destruct (Qle_bool _ _); [destruct (Z.eqb_spec (chunk_id st) nchunk)|]; simpl;
    rewrite ?length_app; simpl; lia.
Qed.

Lemma pack_fold_counted (nchar_chunk : Q) (nchunk : Z) (sentences : list str)
    (st : pack_state) :
  counted nchunk st ->
  counted nchunk (fold_left (pack_step nchar_chunk nchunk) sentences st).
Proof.
  revert st. induction sentences as [|s ss IH]; intros st Hst; simpl; [exact Hst|].
  now apply IH, pack_step_counted.
Qed.

Lemma pack_length (nchar_chunk : Q) (nchunk : Z) (sentences : list str) :
  1 <= nchunk -> Z.of_nat (length (pack nchar_chunk nchunk sentences)) <= nchunk.
Proof.
  intros Hn. unfold pack.
  destruct (pack_fold_counted nchar_chunk nchunk sentences pack_init) as [Hle Hlen].
  { split; simpl; lia. }
  unfold pack_finish. destruct (is_empty _); rewrite ?length_app; simpl; lia.
Qed.

(** *** When [split_section] returns *)

Lemma split_section_returns (text : str) (splitter : str -> list str) (max_nchar : Z) :
  1 <= max_nchar ->
  exists chunks, split_section text splitter max_nchar = Returns chunks.
Proof.
  intros HM. unfold split_section.
  destruct (Z.leb_spec (len text) max_nchar) as [Hle|Hgt]; [eauto|].
  destruct (Z.eqb_spec max_nchar 0); [lia|].
  pose proof (estimate_nchunk_pos (len text) max_nchar) as Hpos.
  destruct (grow_nchunk_some (Z.to_nat (len text)) (len text) max_nchar
              (estimate_nchunk (len text) max_nchar)) as (k & -> & _);
    try lia. eauto.
Qed.

(** C6: when [len(text) > max_nchar >= 1] the loop on the chunk count
    ends, whatever number of iterations at least [len(text)] it is given;
    it ends on the first count, from the estimate on, whose per-chunk
    size, the float [len(text) / nchunk], does not exceed [max_nchar].
    For a text of less than [2^53] characters the exact quotient does not
    exceed it either, and exceeds it at every count passed over. *)
Theorem grow_nchunk_terminates (text : str) (max_nchar : Z) :
  len text > max_nchar -> max_nchar >= 1 ->
  exists nchunk,
    (forall fuel, (Z.to_nat (len text) <= fuel)%nat ->
       grow_nchunk fuel (len text) max_nchar
         (estimate_nchunk (len text) max_nchar) = Some nchunk)
    /\ estimate_nchunk (len text) max_nchar <= nchunk
    /\ (true_div (len text) nchunk <= inject_Z max_nchar)%Q
    /\ (forall k, estimate_nchunk (len text) max_nchar <= k < nchunk ->
          exceeds (true_div (len text) k) max_nchar = true)
    /\ (len text < 2 ^ 53 ->
        len text <= max_nchar * nchunk
        /\ forall k, estimate_nchunk (len text) max_nchar <= k < nchunk ->
             max_nchar * k < len text).
Proof.
  intros HT HM.
  pose proof (estimate_nchunk_pos (len text) max_nchar) as Hpos.
  destruct (grow_nchunk_some (Z.to_nat (len text)) (len text) max_nchar
              (estimate_nchunk (len text) max_nchar))
    as (n & E & Hge & Hfit & Hmin); try lia.
  exists n. repeat split.
  - intros fuel Hfuel.
    replace fuel with (Z.to_nat (len text) + (fuel - Z.to_nat (len text)))%nat by lia.
    now apply grow_nchunk_more_fuel.
  - exact Hge.
  - now apply exceeds_false_iff.
  - exact Hmin.
  - rewrite exceeds_exact in Hfit by lia.
    apply negb_false_iff, Z.leb_le in Hfit. exact Hfit.
  - intros k Hk. specialize (Hmin k Hk).
    rewrite exceeds_exact in Hmin by lia.
    now apply negb_true_iff, Z.leb_gt in Hmin.
Qed.

Lemma grow_nchunk_terminates_witness :
  exists nchunk,
    (forall fuel, (Z.to_nat (len (lit "abcdefg")) <= fuel)%nat ->
       grow_nchunk fuel (len (lit "abcdefg")) 3
         (estimate_nchunk (len (lit "abcdefg")) 3) = Some nchunk)
    /\ estimate_nchunk (len (lit "abcdefg")) 3 <= nchunk
    /\ (true_div (len (lit "abcdefg")) nchunk <= inject_Z 3)%Q
    /\ (forall k, estimate_nchunk (len (lit "abcdefg")) 3 <= k < nchunk ->
          exceeds (true_div (len (lit "abcdefg")) k) 3 = true)
    /\ (len (lit "abcdefg") < 2 ^ 53 ->
        len (lit "abcdefg") <= 3 * nchunk
        /\ forall k, estimate_nchunk (len (lit "abcdefg")) 3 <= k < nchunk ->
             3 * k < len (lit "abcdefg")).
Proof.
  apply (grow_nchunk_terminates (lit "abcdefg") 3); vm_compute; congruence.
Defined.

(** C5: a text no longer than [max_nchar] comes back as it is, alone. *)
Theorem split_section_short (text : str) (splitter : str -> list str) (max_nchar : Z) :
  len text <= max_nchar ->
  split_section text splitter max_nchar = Returns [text].
Proof.
  intros Hle. unfold split_section.
  now apply Z.leb_le in Hle as ->.
Qed.

Lemma split_section_short_witness :
  split_section (lit " one  line ") stop_splitter 11 = Returns [lit " one  line "].
Proof.
  apply split_section_short. vm_compute. congruence.
Defined.

Lemma one_sentence_contract : splitter_contract one_sentence.
Proof. intros line. apply app_nil_r. Qed.

Lemma stop_splitter_aux_concat (cur line : str) :
  concat (stop_splitter_aux cur line) = rev cur ++ line.
Proof.
  revert cur. induction line as [|c line IH]; intros cur; simpl.
  - destruct cur; simpl; now rewrite ?app_nil_r.
  - destruct (is_stop c); simpl; rewrite IH; simpl; now rewrite <- app_assoc.
Qed.

Lemma stop_splitter_contract : splitter_contract stop_splitter.
Proof. intros line. apply stop_splitter_aux_concat. Qed.

Lemma split_section_chunks (text : str) (splitter : str -> list str)
    (max_nchar : Z) (chunks : list str) :
  splitter_contract splitter ->
  split_section text splitter max_nchar = Returns chunks ->
  reconstructs chunks
    (if len text <=? max_nchar then text else collapse_newlines text)
  /\ erase_ws (concat chunks) = erase_ws text.
Proof.
  intros contract. unfold split_section.
  destruct (len text <=? max_nchar).
  - intros [= <-]. split.
    + rewrite <- (app_nil_r text) at 2. change text with ([] ++ text) at 2.
      rewrite <- app_assoc. repeat constructor.
    + simpl. now rewrite app_nil_r.
  - destruct (max_nchar =? 0); [discriminate|].
    destruct (grow_nchunk _ _ _ _); [|discriminate].
    intros [= <-]. split.
    + apply (split_sentences_reconstructs splitter contract).
      * apply pack_trimmed.
      * apply pack_reconstructs.
    + rewrite pack_content. now apply erase_ws_split_sentences.
Qed.

(** C3, as the code has it: with a splitter whose sentences concatenate
    back to the line, [split_section] returns for every budget of at least
    one character, and the chunks it returns are the text, short of
    whitespace before, between and after them, once every run of newlines
    of the text is replaced by one newline (a text within the budget comes
    back as it is).  So the chunks hold the characters of the text that
    are not whitespace, all of them and in their order. *)
Theorem split_section_content (text : str) (splitter : str -> list str) (max_nchar : Z) :
  splitter_contract splitter ->
  (1 <= max_nchar ->
   exists chunks, split_section text splitter max_nchar = Returns chunks)
  /\ (forall chunks,
        split_section text splitter max_nchar = Returns chunks ->
        reconstructs chunks
          (if len text <=? max_nchar then text else collapse_newlines text)
        /\ erase_ws (concat chunks) = erase_ws text).
Proof.
  intros contract. split; [apply split_section_returns|].
  intros chunks. now apply split_section_chunks.
Qed.

Lemma split_section_content_witness :
  (1 <= 10 ->
   exists chunks, split_section Samples.gap_text stop_splitter 10 = Returns chunks)
  /\ (forall chunks,
        split_section Samples.gap_text stop_splitter 10 = Returns chunks ->
        reconstructs chunks
          (if len Samples.gap_text <=? 10 then Samples.gap_text
           else collapse_newlines Samples.gap_text)
        /\ erase_ws (concat chunks) = erase_ws Samples.gap_text).
Proof.
  apply (split_section_content Samples.gap_text stop_splitter 10).
  exact stop_splitter_contract.
Defined.

(** C3, as stated, fails: two lines that end up in one chunk keep a single
    newline between them, however many the text had, so the text is not
    its chunks with whitespace around them. *)
Lemma split_section_collapses_newlines :
  splitter_contract one_sentence
  /\ exists chunks,
       split_section Samples.gap_text one_sentence 10 = Returns chunks
       /\ ~ reconstructs chunks Samples.gap_text.
Proof.
  split; [exact one_sentence_contract|].
  eexists. split; [vm_compute; reflexivity|].
  intros Hrec. inversion Hrec as [|w chunk chunks rest Hw _ Hc Ht]. subst.
  clear Hrec. vm_compute in Ht.
  destruct w as [|c w]; [discriminate Ht|].
  injection Ht as -> _. inversion Hw as [|? ? Hspace _]. discriminate Hspace.
Qed.

(** C4, as the code has it: for a text of 2000 characters and a budget of
    750 the chunk count settles on 3, and [split_section] returns at most
    3 chunks, which are the text with its runs of newlines collapsed,
    short of whitespace around them. *)
Theorem split_section_2000 (text : str) (splitter : str -> list str) :
  len text = 2000 -> splitter_contract splitter ->
  grow_nchunk (Z.to_nat (len text)) (len text) 750 (estimate_nchunk (len text) 750)
  = Some 3
  /\ exists chunks,
       split_section text splitter 750 = Returns chunks
       /\ (length chunks <= 3)%nat
       /\ reconstructs chunks (collapse_newlines text)
       /\ erase_ws (concat chunks) = erase_ws text.
Proof.
  intros Hlen contract.
  assert (grow_nchunk (Z.to_nat (len text)) (len text) 750
            (estimate_nchunk (len text) 750) = Some 3) as Hgrow
    by (rewrite Hlen; vm_compute; reflexivity).
  split; [exact Hgrow|].
  destruct (split_section_returns text splitter 750) as [chunks E]; [lia|].
  destruct (split_section_chunks text splitter 750 chunks contract E) as [Hrec Herase].
  rewrite Hlen in Hrec. change (2000 <=? 750) with false in Hrec.
  exists chunks. repeat split; [exact E | | exact Hrec | exact Herase].
  unfold split_section in E. rewrite Hgrow, Hlen in E. simpl in E.
  injection E as <-.
  pose proof (pack_length (true_div 2000 3) 3 (split_sentences splitter text)). lia.
Qed.

Lemma split_section_2000_witness :
  grow_nchunk (Z.to_nat (len Samples.long_word)) (len Samples.long_word) 750
    (estimate_nchunk (len Samples.long_word) 750) = Some 3
  /\ exists chunks,
       split_section Samples.long_word one_sentence 750 = Returns chunks
       /\ (length chunks <= 3)%nat
       /\ reconstructs chunks (collapse_newlines Samples.long_word)
       /\ erase_ws (concat chunks) = erase_ws Samples.long_word.
Proof.
  apply (split_section_2000 Samples.long_word one_sentence).
  - vm_compute. reflexivity.
  - exact one_sentence_contract.
Defined.

(** C4, as stated, fails: a text of 2000 characters that is one sentence
    comes back as two chunks, the first of them empty. *)
Lemma split_section_2000_two_chunks :
  len Samples.long_word = 2000
  /\ splitter_contract one_sentence
  /\ exists chunks,
       split_section Samples.long_word one_sentence 750 = Returns chunks
       /\ length chunks = 2%nat
       /\ In [] chunks.
Proof.
  split; [vm_compute; reflexivity|]. split; [exact one_sentence_contract|].
  exists [[]; Samples.long_word].
  split; [vm_compute; reflexivity|]. split; [reflexivity | left; reflexivity].
Qed.

End ChunksFacts.

(** ** The passage grouper *)

Module PassagesFacts.
Import Chunks Json Passages ChunksFacts.

#[local] Arguments json_dumps : simpl never.
#[local] Arguments output_item : simpl never.

Lemma str_eqb_refl (s : str) : str_eqb s s = true.
Proof. unfold str_eqb. now destruct (list_eq_dec N.eq_dec s s). Qed.

Lemma section_eqb_refl (s : section_dict) : section_eqb s s = true.
Proof.
  unfold section_eqb, option_str_eqb.
  destruct (sec_h2 s), (sec_h3 s), (sec_h4 s), (sec_dt s);
    now rewrite ?str_eqb_refl.
Qed.

Lemma key_changed_same (row : paragraph) : key_changed row row = false.
Proof. unfold key_changed. now rewrite str_eqb_refl, section_eqb_refl. Qed.

Lemma split_section_raises (text : str) (splitter : str -> list str)
    (max_nchar : Z) (e : exn) :
  split_section text splitter max_nchar = Raises e -> e = ZeroDivisionError.
Proof.
  unfold split_section.
  destruct (_ <=? _); [discriminate|].
  destruct (_ =? _); [congruence|].
  destruct (grow_nchunk _ _ _ _); discriminate.
Qed.

Lemma yield_chunks_length (passage_id : Z) (lastrow : paragraph) (chunks : list str) :
  length (fst (yield_chunks passage_id lastrow chunks)) = length chunks
  /\ snd (yield_chunks passage_id lastrow chunks) = passage_id + Z.of_nat (length chunks).
Proof.
  revert passage_id. induction chunks as [|c cs IH]; intros passage_id; simpl.
  - split; [reflexivity | lia].
  - destruct (IH (passage_id + 1)) as [Hl Hp].
    destruct (yield_chunks (passage_id + 1) lastrow cs) as [items pid'].
    simpl in *. split; [now f_equal | lia].
Qed.

Lemma yield_chunks_nth (passage_id : Z) (lastrow : paragraph) (chunks : list str)
    (n : nat) (item : str) :
  nth_error (fst (yield_chunks passage_id lastrow chunks)) n = Some item ->
  exists chunk,
    nth_error chunks n = Some chunk
    /\ item = json_dumps (output_item (passage_id + Z.of_nat n) lastrow chunk).
Proof.
  revert passage_id n. induction chunks as [|c cs IH]; intros passage_id n; simpl.
  - destruct n; discriminate.
  - specialize (IH (passage_id + 1)).
    destruct (yield_chunks (passage_id + 1) lastrow cs) as [items pid'].
    destruct n as [|n]; simpl.
    + intros [= <-]. exists c. split; [reflexivity|]. now rewrite Z.add_0_r.
    + intros Hn. destruct (IH n Hn) as (chunk & Hc & ->).
      exists chunk. split; [exact Hc|].
      assert (passage_id + 1 + Z.of_nat n = passage_id + Z.of_nat (S n)) as -> by lia.
      reflexivity.
Qed.

(** A decimal integer is read back from what [str] wrote. *)
Lemma unlit_lit (s : String.string) : Notions.unlit (lit s) = s.
Proof.
  induction s as [|a s IH]; simpl; [reflexivity|].
  now rewrite ascii_N_embedding, IH.
Qed.

Lemma number_chars_digits (digits rest : str) :
  Forall (fun c => c <> 44%N /\ c <> rbrace) digits ->
  Notions.number_chars (digits ++ 44%N :: rest) = digits.
Proof.
  induction 1 as [|c digits [Hc1 Hc2] _ IH]; simpl.
  - reflexivity.
  - destruct (N.eqb_spec c 44); [contradiction|].
    destruct (N.eqb_spec c rbrace); [contradiction|]. simpl. now rewrite IH.
Qed.

Lemma str_of_int_digits (z : Z) :
  Forall (fun c => c <> 44%N /\ c <> rbrace) (str_of_int z).
Proof.
  assert (forall u, Forall (fun c => c <> 44%N /\ c <> rbrace)
                      (lit (NilEmpty.string_of_uint u))) as Hdigits.
  { induction u; cbn [NilEmpty.string_of_uint lit];
      (apply Forall_nil || (apply Forall_cons; [now vm_compute | assumption])). }
  assert (forall u, Forall (fun c => c <> 44%N /\ c <> rbrace)
                      (lit (NilZero.string_of_uint u))) as Hzero.
  { intros u. destruct u; try apply Hdigits.
    cbn [NilZero.string_of_uint lit].
    apply Forall_cons; [now vm_compute | apply Forall_nil]. }
  unfold str_of_int, NilZero.string_of_int.
  destruct (Z.to_int z) as [d|d]; [apply Hzero|].
  cbn [lit]. apply Forall_cons; [now vm_compute | apply Hzero].
Qed.

Lemma int_of_string_of_int (z : Z) :
  option_map Z.of_int (NilZero.int_of_string (NilZero.string_of_int (Z.to_int z)))
  = Some z.
Proof.
  rewrite NilZero.isi.
  - simpl. now rewrite DecimalZ.of_to.
  - destruct z as [|p|p]; simpl; try discriminate.
    intros [= E]. exact (DecimalPos.Unsigned.to_uint_nonnil p E).
  - destruct z as [|p|p]; simpl; try discriminate.
    intros [= E]. exact (DecimalPos.Unsigned.to_uint_nonnil p E).
Qed.

(** The id of the dictionary of lines 101-108 is read back from its
    serialization. *)
Lemma passage_id_of_output_item (passage_id : Z) (lastrow : paragraph) (chunk : str) :
  Notions.passage_id_of (json_dumps (output_item passage_id lastrow chunk))
  = Some passage_id.
Proof.
  unfold Notions.passage_id_of.
  change (json_dumps (output_item passage_id lastrow chunk))
    with (([lbrace; quote] ++ lit "id" ++ [quote] ++ lit ": ")
          ++ (str_of_int passage_id
              ++ 44%N :: space
                 :: join (lit ", ")
                      (map (fun kv => encode_basestring (fst kv) ++ lit ": "
                                      ++ json_dumps (snd kv))
                         [ (lit "pageid", JInt (pageid lastrow));
                           (lit "revid", JInt (revid lastrow));
                           (lit "title", JStr (title lastrow));
                           (lit "section", section_json (section lastrow));
                           (lit "text", JStr chunk) ]))
             ++ [rbrace]).
  assert (forall p s, Notions.strip_prefix p (p ++ s) = Some s) as Hprefix.
  { induction p as [|a p IH]; intros s; simpl; [reflexivity|].
    now rewrite N.eqb_refl. }
  rewrite Hprefix, <- app_assoc, <- app_comm_cons.
  rewrite number_chars_digits by apply str_of_int_digits.
  unfold str_of_int. rewrite unlit_lit. apply int_of_string_of_int.
Qed.

Section Generator.

Variable sentence_splitter : str -> list str.
Variable max_passage_length : Z.

Local Abbreviation rows_loop := (rows_loop sentence_splitter max_passage_length).
Local Abbreviation generate_passages :=
  (generate_passages sentence_splitter max_passage_length).
Local Abbreviation main := (main sentence_splitter max_passage_length).

Lemma rows_loop_nth (data : list paragraph) (passage_id : Z)
    (section_rows : list paragraph) (lastrow : paragraph) (n : nat) (item : str) :
  nth_error (fst (rows_loop data passage_id section_rows lastrow)) n = Some item ->
  exists row chunk,
    item = json_dumps (output_item (passage_id + Z.of_nat n) row chunk).
Proof.
  revert passage_id section_rows lastrow n.
  induction data as [|row data IH]; intros passage_id section_rows lastrow n; simpl.
  - destruct n; discriminate.
  - destruct (key_changed row lastrow); [|apply IH].
    destruct (split_section _ _ _) as [chunks| |];
      [|destruct n; discriminate..].
    pose proof (yield_chunks_length passage_id lastrow chunks) as [Hlen Hpid].
    pose proof (yield_chunks_nth passage_id lastrow chunks) as Hnth.
    destruct (yield_chunks passage_id lastrow chunks) as [items pid'].
    simpl in Hlen, Hpid, Hnth. subst pid'.
    specialize (IH (passage_id + Z.of_nat (length chunks)) [row] row).
    destruct (rows_loop data _ [row] row) as [rest how]. simpl in *.
    destruct (Nat.lt_ge_cases n (length items)) as [Hlt|Hge].
    + rewrite nth_error_app1 by exact Hlt. intros Hn.
      destruct (Hnth n item Hn) as (chunk & _ & ->). eauto.
    + rewrite nth_error_app2 by exact Hge. intros Hn.
      destruct (IH _ Hn) as (r & chunk & ->).
      exists r, chunk.
      assert (passage_id + Z.of_nat (length chunks) + Z.of_nat (n - length items)
              = passage_id + Z.of_nat n) as -> by lia.
      reflexivity.
Qed.

Lemma rows_loop_no_index_error (data : list paragraph) (passage_id : Z)
    (section_rows : list paragraph) (lastrow : paragraph) :
  snd (rows_loop data passage_id section_rows lastrow) <> Raises IndexError.
Proof.
  revert passage_id section_rows lastrow.
  induction data as [|row data IH]; intros passage_id section_rows lastrow; simpl.
  - discriminate.
  - destruct (key_changed row lastrow); [|apply IH].
    destruct (split_section _ _ _) as [chunks|e|] eqn:E; simpl.
    + destruct (yield_chunks passage_id lastrow chunks) as [items pid'].
      specialize (IH pid' [row] row).
      destruct (rows_loop data pid' [row] row) as [rest how]. exact IH.
    + apply split_section_raises in E as ->. discriminate.
    + discriminate.
Qed.

(** C7: the ids that the items yielded carry, read off the items in the
    order in which they are yielded, are 0, 1, 2, ...: item number [n],
    counting from 0, starts with the member [id] of value [n], whatever
    titles and sections the stream goes through. *)
Theorem passage_ids_dense (data : list paragraph) :
  map Notions.passage_id_of (fst (generate_passages data))
  = map (fun n => Some (Z.of_nat n))
      (seq 0 (length (fst (generate_passages data)))).
Proof.
  apply nth_error_ext. intros n. rewrite !nth_error_map.
  destruct (nth_error (fst (generate_passages data)) n) as [item|] eqn:Hn.
  - assert (n < length (fst (generate_passages data)))%nat as Hlt
      by (apply nth_error_Some; congruence).
    rewrite (nth_error_nth' _ 0%nat) by (now rewrite length_seq).
    rewrite seq_nth by exact Hlt. simpl.
    unfold Passages.generate_passages in Hn. destruct data as [|row0 data].
    + destruct n; discriminate.
    + apply rows_loop_nth in Hn. destruct Hn as (row & chunk & ->).
      now rewrite passage_id_of_output_item.
  - apply nth_error_None in Hn.
    assert (nth_error (seq 0 (length (fst (generate_passages data)))) n = None) as ->
      by (apply nth_error_None; now rewrite length_seq).
    reflexivity.
Qed.

(** C10: on an empty stream [generate_passages] raises [IndexError] and
    yields nothing; on a stream with a first record it never raises
    [IndexError]. *)
Theorem generate_passages_empty_stream :
  generate_passages [] = ([], Raises IndexError)
  /\ forall row data, snd (generate_passages (row :: data)) <> Raises IndexError.
Proof.
  split; [reflexivity|]. intros row data. apply rows_loop_no_index_error.
Qed.

(** C9, as the code has it: every line that [main] prints is the
    serialization of a JSON string, the item that [generate_passages] had
    already serialized, and of no JSON object. *)
Theorem main_prints_json_strings (data : list paragraph) :
  Forall
    (fun line =>
       (exists passage_item,
          In passage_item (fst (generate_passages data))
          /\ line = json_dumps (JStr passage_item))
       /\ forall members, line <> json_dumps (JObj members))
    (fst (main data)).
Proof.
  unfold Passages.main. destruct (generate_passages data) as [items how]. simpl.
  apply Forall_forall. intros line Hin.
  apply in_map_iff in Hin as (passage_item & <- & Hitem).
  split; [eauto|]. intros members.
  change (json_dumps (JStr passage_item))
    with (quote :: flat_map escape_char passage_item ++ [quote]).
  unfold json_dumps. simpl. discriminate.
Qed.

End Generator.

Lemma passage_ids_dense_witness :
  map Notions.passage_id_of
    (fst (generate_passages one_sentence 1000
            [Samples.row_one; Samples.row_three; Samples.row_one; Samples.row_three]))
  = [Some 0; Some 1; Some 2].
Proof.
  rewrite (passage_ids_dense one_sentence 1000
             [Samples.row_one; Samples.row_three; Samples.row_one; Samples.row_three]).
  vm_compute. reflexivity.
Defined.

(** The grouper and the grouper with a final flush yield the same items,
    until the second one flushes. *)
Lemma rows_loop_prefix (splitter : str -> list str) (max_passage_length : Z)
    (data : list paragraph) (passage_id : Z) (section_rows : list paragraph)
    (lastrow : paragraph) :
  exists tail,
    fst (rows_loop_flushing splitter max_passage_length data passage_id
           section_rows lastrow)
    = fst (rows_loop splitter max_passage_length data passage_id
             section_rows lastrow) ++ tail.
Proof.
  revert passage_id section_rows lastrow.
  induction data as [|row data IH]; intros passage_id section_rows lastrow; simpl.
  - eauto.
  - destruct (key_changed row lastrow); [|apply IH].
    destruct (split_section _ _ _) as [chunks| |]; simpl; [|exists []; reflexivity..].
    destruct (yield_chunks passage_id lastrow chunks) as [items pid'].
    destruct (IH pid' [row] row) as [tail E].
    destruct (rows_loop_flushing _ _ data pid' [row] row) as [rest' how'].
    destruct (rows_loop _ _ data pid' [row] row) as [rest how].
    simpl in *. exists tail. now rewrite E, app_assoc.
Qed.

Lemma rows_loop_one_group (splitter : str -> list str) (max_passage_length : Z)
    (row : paragraph) (n : nat) (passage_id : Z) (section_rows : list paragraph) :
  rows_loop splitter max_passage_length (repeat row n) passage_id section_rows row
  = ([], Returns tt).
Proof.
  revert section_rows. induction n as [|n IH]; intros section_rows; simpl.
  - reflexivity.
  - rewrite key_changed_same. apply IH.
Qed.

(** C1, as the code has it: the group still buffered when the stream ends
    is not flushed.  The items yielded are the first of those a grouper
    with a final flush yields; a stream that is one record repeated yields
    nothing; so does the example of the specification, whose two
    paragraphs the grouper with a final flush turns into one passage. *)
Theorem final_group_not_flushed :
  (forall splitter max_passage_length data,
     exists tail,
       fst (generate_passages_flushing splitter max_passage_length data)
       = fst (generate_passages splitter max_passage_length data) ++ tail)
  /\ (forall splitter max_passage_length row n,
        generate_passages splitter max_passage_length (repeat row (S n))
        = ([], Returns tt))
  /\ generate_passages one_sentence 1000 [Samples.row_one; Samples.row_two]
     = ([], Returns tt)
  /\ generate_passages_flushing one_sentence 1000 [Samples.row_one; Samples.row_two]
     = ([json_dumps (output_item 0 Samples.row_two
                       (lit "Sentence one." ++ [nl] ++ lit "Sentence two."))],
        Returns tt).
Proof.
  split; [|split; [|split]].
  - intros splitter max_passage_length [|row0 data].
    + exists []. reflexivity.
    + apply rows_loop_prefix.
  - intros splitter max_passage_length row n.
    apply (rows_loop_one_group splitter max_passage_length row (S n)).
  - vm_compute. reflexivity.
  - vm_compute. reflexivity.
Qed.

(** The only line printed for three paragraphs, the third under another
    heading: the passage of the first two, serialized twice. *)
Example main_sample :
  main one_sentence 1000 [Samples.row_one; Samples.row_two; Samples.row_three]
  = ([json_dumps (JStr (json_dumps (output_item 0 Samples.row_two
                          (lit "Sentence one." ++ [nl] ++ lit "Sentence two."))))],
     Returns tt).
Proof. vm_compute. reflexivity. Qed.

Example main_sample_line :
  json_dumps (JStr (json_dumps (output_item 0 Samples.row_two (lit "one"))))
  = [quote] ++ lit "{" ++ [backslash; quote] ++ lit "id"
    ++ [backslash; quote] ++ lit ": 0, " ++ [backslash; quote] ++ lit "pageid"
    ++ [backslash; quote] ++ lit ": 5, " ++ [backslash; quote] ++ lit "revid"
    ++ [backslash; quote] ++ lit ": 7, " ++ [backslash; quote] ++ lit "title"
    ++ [backslash; quote] ++ lit ": " ++ [backslash; quote] ++ lit "A"
    ++ [backslash; quote] ++ lit ", " ++ [backslash; quote] ++ lit "section"
    ++ [backslash; quote] ++ lit ": {" ++ [backslash; quote] ++ lit "h2"
    ++ [backslash; quote] ++ lit ": " ++ [backslash; quote] ++ lit "X"
    ++ [backslash; quote] ++ lit "}, " ++ [backslash; quote] ++ lit "text"
    ++ [backslash; quote] ++ lit ": " ++ [backslash; quote] ++ lit "one"
    ++ [backslash; quote] ++ lit "}" ++ [quote].
Proof. vm_compute. reflexivity. Qed.

End PassagesFacts.

(** ** The paragraph extractor *)

Module ExtractorFacts.
Import Extractor.

Local Open Scope string_scope.
Local Open Scope list_scope.

(** *** The heading context *)

Section Headings.

Context {U : Unicodedata}.
Variable tags_to_extract tags_to_remove inner_tags_to_remove : list string.

Lemma tag_step_tracks (st st' : bool * bool) (ctx : headings) (v : visit) :
  tracks st ctx -> nesting_step st v = Some st' ->
  tracks st' (fst (tag_step ctx v))
  /\ Forall (fun it => monotone (item_context it)) (snd (tag_step ctx v)).
Proof.
  unfold tracks, nesting_step, tag_step, monotone.
  destruct st as [in_h3 in_h4]. simpl. intros (E3 & E4 & M3 & M4).
  destruct (skip v); [intros [= <-]; simpl; auto|].
  destruct (tag_name v =? "h3");
    [intros [= <-]; simpl; repeat split; try constructor; congruence|].
  destruct (tag_name v =? "h4").
  { destruct in_h3; [|discriminate]. intros [= <-]. simpl.
    destruct (h3 ctx); [|discriminate].
    repeat split; try constructor; congruence. }
  destruct (tag_name v =? "dt").
  { destruct in_h4; [|discriminate]. intros [= <-]. simpl.
    destruct (h4 ctx); [|discriminate].
    destruct (h3 ctx); [repeat split; try constructor; congruence|].
    destruct M3 as [M3 _]; [reflexivity | discriminate]. }
  intros [= <-]. simpl. split; [auto|].
  constructor; [|constructor]. simpl. auto.
Qed.

Lemma tags_loop_tracks (tags : list visit) (st st' : bool * bool) (ctx : headings) :
  tracks st ctx -> nesting_tags st tags = Some st' ->
  tracks st' (fst (tags_loop ctx tags))
  /\ Forall (fun it => monotone (item_context it)) (snd (tags_loop ctx tags)).
Proof.
  revert st ctx. induction tags as [|v tags IH]; intros st ctx Htr; simpl.
  - intros [= <-]. auto.
  - destruct (nesting_step st v) as [st1|] eqn:E; [|discriminate].
    intros Hrest.
    destruct (tag_step_tracks st st1 ctx v Htr E) as [Htr1 Hout1].
    destruct (tag_step ctx v) as [ctx1 out1]. simpl in Htr1, Hout1.
    destruct (IH st1 ctx1 Htr1 Hrest) as [Htr2 Hout2].
    destruct (tags_loop ctx1 tags) as [ctx2 out2]. simpl in *.
    split; [exact Htr2 | now apply Forall_app].
Qed.

Lemma enter_section_tracks (st : bool * bool) (ctx : headings) (section : node) :
  tracks st ctx ->
  tracks (if has_h2 section then (false, false) else st) (enter_section ctx section).
Proof.
  unfold has_h2, enter_section. intros Htr.
  destruct section as [name contents|s|class s]; [|exact Htr..].
  destruct (find_first_in "h2" contents); [|exact Htr].
  unfold tracks, monotone. simpl. auto.
Qed.

Lemma sections_loop_monotone (anc : list string) (sections : list node)
    (st : bool * bool) (ctx : headings) :
  tracks st ctx ->
  nesting_sections tags_to_extract tags_to_remove inner_tags_to_remove
    anc st sections = true ->
  Forall (fun it => monotone (item_context it))
    (sections_loop tags_to_extract tags_to_remove inner_tags_to_remove
       anc ctx sections).
Proof.
  revert st ctx. induction sections as [|section sections IH]; intros st ctx Htr; simpl.
  - constructor.
  - destruct (nesting_tags _ _) as [st1|] eqn:E; [|discriminate].
    intros Hrest.
    destruct (tags_loop_tracks _ _ st1 _ (enter_section_tracks st ctx section Htr) E)
      as [Htr1 Hout].
    destruct (tags_loop _ _) as [ctx1 out]. simpl in Htr1, Hout.
    apply Forall_app. split; [exact Hout | exact (IH st1 ctx1 Htr1 Hrest)].
Qed.

(** C2, as the code has it: in a document whose headings are nested as
    the loop body assumes, an h4 only below an h3 and a dt only below an
    h4, every item yielded has a monotone heading context. *)
Theorem heading_context_monotone (soup : node) :
  well_nested tags_to_extract tags_to_remove inner_tags_to_remove soup = true ->
  Forall (fun it => monotone (item_context it))
    (extract_paragraphs_from_html tags_to_extract tags_to_remove
       inner_tags_to_remove soup).
Proof.
  unfold well_nested, extract_paragraphs_from_html.
  destruct (sections_of soup) as [anc sections].
  apply sections_loop_monotone.
  unfold tracks, monotone. simpl. auto.
Qed.

End Headings.

Lemma heading_context_monotone_witness :
  Forall (fun it => monotone (item_context it))
    (extract_paragraphs_from_html (U := ascii_unicodedata)
       DEFAULT_TAGS_TO_EXTRACT DEFAULT_TAGS_TO_REMOVE
       DEFAULT_INNER_TAGS_TO_REMOVE Samples.nested_page).
Proof.
  apply (heading_context_monotone DEFAULT_TAGS_TO_EXTRACT DEFAULT_TAGS_TO_REMOVE
           DEFAULT_INNER_TAGS_TO_REMOVE Samples.nested_page).
  vm_compute. reflexivity.
Defined.

(** C2, as stated, fails: a definition list directly under an h2 yields
    its description with [dt] set while [h3] and [h4] are absent. *)
Lemma heading_context_not_monotone :
  extract_paragraphs_from_html (U := ascii_unicodedata)
    DEFAULT_TAGS_TO_EXTRACT DEFAULT_TAGS_TO_REMOVE
    DEFAULT_INNER_TAGS_TO_REMOVE Samples.definition_list_page
  = [({| h2 := Some (lit "History"); h3 := None; h4 := None;
         dt := Some (lit "Term") |},
      lit "A description.", "dd")]
  /\ ~ Forall (fun it => monotone (item_context it))
         (extract_paragraphs_from_html (U := ascii_unicodedata)
            DEFAULT_TAGS_TO_EXTRACT DEFAULT_TAGS_TO_REMOVE
            DEFAULT_INNER_TAGS_TO_REMOVE Samples.definition_list_page).
Proof.
  assert (extract_paragraphs_from_html DEFAULT_TAGS_TO_EXTRACT DEFAULT_TAGS_TO_REMOVE
            DEFAULT_INNER_TAGS_TO_REMOVE Samples.definition_list_page
          = [({| h2 := Some (lit "History"); h3 := None; h4 := None;
                 dt := Some (lit "Term") |},
              lit "A description.", "dd")]) as E
    by (vm_compute; reflexivity).
  split; [exact E|]. rewrite E. intros Hall.
  inversion Hall as [|it its [M3 _] _]. simpl in M3.
  destruct M3 as [_ Hdt]; [reflexivity | discriminate Hdt].
Qed.

(** *** Normalization *)

Lemma normalize_text_unfiltered {U : Unicodedata} (s : str) :
  forallb isprintable (join [space] (split_ws (normalize_NFKC s))) = true ->
  normalize_text s = join [space] (split_ws (normalize_NFKC s)).
Proof.
  intros Hp. unfold normalize_text.
  rewrite (PyStrFacts.filter_all _ _ Hp).
  apply PyStrFacts.strip_join, PyStrFacts.split_ws_words.
Qed.

(** C8, as the code has it: when the characters left by the collapse of
    whitespace are all printable, so that the third step of
    [normalize_text] removes nothing, a second application changes
    nothing. *)
Theorem normalize_text_idempotent {U : Unicodedata} {L : NormalizationLaws U}
    (s : str) :
  forallb isprintable (join [space] (split_ws (normalize_NFKC s))) = true ->
  normalize_text (normalize_text s) = normalize_text s.
Proof.
  intros Hp. rewrite (normalize_text_unfiltered s Hp).
  set (t := normalize_NFKC s) in *.
  assert (normalize_NFKC (join [space] (split_ws t)) = join [space] (split_ws t)) as Hn
    by (apply nfkc_collapse, nfkc_idempotent).
  assert (split_ws (join [space] (split_ws t)) = split_ws t) as Hs
    by (apply PyStrFacts.split_ws_join, PyStrFacts.split_ws_words).
  rewrite normalize_text_unfiltered; rewrite Hn, Hs; [reflexivity | exact Hp].
Qed.

#[local] Instance ascii_laws : NormalizationLaws ascii_unicodedata.
Proof. split; reflexivity. Qed.

Lemma normalize_text_idempotent_witness :
  normalize_text (U := ascii_unicodedata)
    (normalize_text (U := ascii_unicodedata) (lit "  two   words "))
  = normalize_text (U := ascii_unicodedata) (lit "  two   words ").
Proof.
  apply (@normalize_text_idempotent ascii_unicodedata ascii_laws).
  vm_compute. reflexivity.
Defined.

(** C8, as stated, fails: a control character between two spaces is
    removed after the whitespace was collapsed, and leaves two spaces that
    the second application collapses. *)
Lemma normalize_text_not_idempotent :
  normalize_text (U := ascii_unicodedata) Samples.control_text = lit "a  b"
  /\ normalize_text (U := ascii_unicodedata) (lit "a  b") = lit "a b"
  /\ normalize_text (U := ascii_unicodedata)
       (normalize_text (U := ascii_unicodedata) Samples.control_text)
     <> normalize_text (U := ascii_unicodedata) Samples.control_text.
Proof.
  repeat split; [vm_compute; reflexivity..|].
  vm_compute. discriminate.
Qed.

End ExtractorFacts.

(** ** More on the chunk balancer *)

Module ChunksMore.
Import Chunks Notions PyStrFacts ChunksFacts.

(** *** How [split_section] ends *)

Lemma split_section_zero (text : str) (splitter : str -> list str) :
  text <> [] -> split_section text splitter 0 = Raises ZeroDivisionError.
Proof.
  intros Hne. unfold split_section.
  destruct (Z.leb_spec (len text) 0) as [Hle|]; [|reflexivity].
  destruct text; [contradiction | unfold len in Hle; simpl in Hle; lia].
Qed.

Lemma split_section_negative (text : str) (splitter : str -> list str) (max_nchar : Z) :
  max_nchar < 0 -> split_section text splitter max_nchar = Diverges.
Proof.
  intros HM. assert (0 <= len text) as Hlen by (unfold len; lia).
  unfold split_section.
  destruct (Z.leb_spec (len text) max_nchar); [lia|].
  destruct (Z.eqb_spec max_nchar 0); [lia|].
  rewrite grow_nchunk_never; [reflexivity | lia | lia | apply estimate_nchunk_pos].
Qed.

(** X1: [split_section] returns when the text fits the budget or the
    budget is at least 1; for a longer text it raises [ZeroDivisionError]
    under a budget of 0 and never ends under a negative budget, the loop
    on the chunk count finding no count to stop at. *)
Theorem split_section_outcome (text : str) (splitter : str -> list str) (max_nchar : Z) :
  (len text <= max_nchar \/ 1 <= max_nchar ->
   exists chunks, split_section text splitter max_nchar = Returns chunks)
  /\ (max_nchar < len text -> max_nchar = 0 ->
      split_section text splitter max_nchar = Raises ZeroDivisionError)
  /\ (max_nchar < len text -> max_nchar < 0 ->
      split_section text splitter max_nchar = Diverges
      /\ forall fuel nchunk, 1 <= nchunk ->
           grow_nchunk fuel (len text) max_nchar nchunk = None).
Proof.
  assert (0 <= len text) as Hlen by (unfold len; lia).
  split; [|split].
  - intros [Hle|HM].
    + exists [text]. unfold split_section. now apply Z.leb_le in Hle as ->.
    + now apply split_section_returns.
  - intros Hlt ->. apply split_section_zero.
    destruct text; [unfold len in Hlt; simpl in Hlt; lia | discriminate].
  - intros Hlt HM. split.
    + now apply split_section_negative.
    + intros fuel nchunk Hn. now apply grow_nchunk_never.
Qed.

Lemma split_section_outcome_witness :
  split_section (lit "ab") one_sentence 0 = Raises ZeroDivisionError
  /\ split_section (lit "ab") one_sentence (-1) = Diverges.
Proof.
  split.
  - apply (proj1 (proj2 (split_section_outcome (lit "ab") one_sentence 0)));
      reflexivity.
  - apply (proj2 (proj2 (split_section_outcome (lit "ab") one_sentence (-1))));
      reflexivity.
Defined.

(** *** The chunk count *)

Lemma ceil_div_spec (a b : Z) :
  0 < b -> a <= b * ceil_div a b /\ b * (ceil_div a b - 1) < a.
Proof.
  intros Hb. unfold ceil_div.
  pose proof (Z.div_mod (a + b - 1) b ltac:(lia)).
  pose proof (Z.mod_pos_bound (a + b - 1) b Hb). nia.
Qed.

Lemma estimate_nchunk_le_ceil (total_nchar max_nchar : Z) :
  0 < total_nchar < 2 ^ 53 -> 1 <= max_nchar ->
  estimate_nchunk total_nchar max_nchar <= ceil_div total_nchar max_nchar.
Proof.
  intros HT HM.
  destruct (ceil_div_spec total_nchar max_nchar ltac:(lia)) as [Hup Hlow].
  assert (0 < inject_Z max_nchar)%Q as HMq
    by (change 0%Q with (inject_Z 0); rewrite <- Zlt_Qlt; lia).
  unfold estimate_nchunk. apply Z.max_lub; [nia|].
  apply py_round_le. unfold true_div. apply binary64_le_int.
  - apply Qlt_shift_div_l; [exact HMq|]. rewrite Qmult_0_l.
    change 0%Q with (inject_Z 0); rewrite <- Zlt_Qlt; lia.
  - apply Qlt_shift_div_r; [exact HMq|]. rewrite <- inject_Z_mult, <- Zlt_Qlt. nia.
  - apply Qle_shift_div_r; [exact HMq|]. rewrite <- inject_Z_mult, <- Zle_Qle. lia.
Qed.

Lemma grow_nchunk_ceil (total_nchar max_nchar : Z) :
  max_nchar < total_nchar < 2 ^ 53 -> 1 <= max_nchar ->
  grow_nchunk (Z.to_nat total_nchar) total_nchar max_nchar
    (estimate_nchunk total_nchar max_nchar)
  = Some (ceil_div total_nchar max_nchar).
Proof.
  intros HT HM.
  pose proof (estimate_nchunk_pos total_nchar max_nchar) as Hpos.
  pose proof (estimate_nchunk_le_ceil total_nchar max_nchar ltac:(lia) HM) as Hest.
  destruct (ceil_div_spec total_nchar max_nchar ltac:(lia)) as [Hup Hlow].
  destruct (grow_nchunk_some (Z.to_nat total_nchar) total_nchar max_nchar
              (estimate_nchunk total_nchar max_nchar))
    as (n & E & Hge & Hfit & Hmin); try lia.
  rewrite E. f_equal.
  rewrite exceeds_exact in Hfit by lia.
  apply negb_false_iff, Z.leb_le in Hfit.
  destruct (Z.lt_total n (ceil_div total_nchar max_nchar)) as [Hlt|[Heq|Hgt]].
  - nia.
  - exact Heq.
  - specialize (Hmin (ceil_div total_nchar max_nchar) ltac:(lia)).
    rewrite exceeds_exact in Hmin by lia.
    apply negb_true_iff, Z.leb_gt in Hmin. lia.
Qed.

(** X2: for a text longer than the budget (and shorter than [2^53]
    characters) the loop on the chunk count stops at
    [ceil(len(text) / max_nchar)], whatever the estimate it starts from,
    and [split_section] returns at most that many chunks. *)
Theorem chunk_count_is_ceil (text : str) (splitter : str -> list str) (max_nchar : Z) :
  max_nchar < len text -> len text < 2 ^ 53 -> 1 <= max_nchar ->
  grow_nchunk (Z.to_nat (len text)) (len text) max_nchar
    (estimate_nchunk (len text) max_nchar)
  = Some (ceil_div (len text) max_nchar)
  /\ exists chunks,
       split_section text splitter max_nchar = Returns chunks
       /\ Z.of_nat (length chunks) <= ceil_div (len text) max_nchar.
Proof.
  intros Hlong Hsmall HM.
  pose proof (grow_nchunk_ceil (len text) max_nchar ltac:(lia) HM) as Hgrow.
  split; [exact Hgrow|].
  destruct (ceil_div_spec (len text) max_nchar ltac:(lia)) as [Hup Hlow].
  unfold split_section. rewrite Hgrow.
  destruct (Z.leb_spec (len text) max_nchar); [lia|].
  destruct (Z.eqb_spec max_nchar 0); [lia|].
  eexists. split; [reflexivity|]. apply pack_length. nia.
Qed.

Lemma chunk_count_is_ceil_witness :
  grow_nchunk (Z.to_nat (len Samples.gap_text)) (len Samples.gap_text) 10
    (estimate_nchunk (len Samples.gap_text) 10)
  = Some (ceil_div (len Samples.gap_text) 10)
  /\ exists chunks,
       split_section Samples.gap_text stop_splitter 10 = Returns chunks
       /\ Z.of_nat (length chunks) <= ceil_div (len Samples.gap_text) 10.
Proof.
  apply (chunk_count_is_ceil Samples.gap_text stop_splitter 10);
    vm_compute; congruence.
Defined.

(** *** The shape of the chunks *)

Lemma lstrip_app_nonspace (s : str) (c : char) :
  isspace c = false -> lstrip (s ++ [c]) = lstrip s ++ [c].
Proof.
  intros Hc. induction s as [|c' s IH]; simpl.
  - now rewrite Hc.
  - destruct (isspace c'); [exact IH | reflexivity].
Qed.

Lemma strip_headed (s : str) : headed (strip s).
Proof.
  intros c s' E. unfold strip, rstrip in E.
  destruct (lstrip s) as [|c0 t] eqn:El.
  - destruct s'; discriminate E.
  - pose proof (lstrip_nonspace _ _ _ El) as Hc0.
    simpl rev in E. rewrite lstrip_app_nonspace in E by exact Hc0.
    rewrite rev_app_distr in E. simpl in E. now injection E as <- _.
Qed.

Lemma pack_all (P : str -> Prop) (nchar_chunk : Q) (nchunk : Z) (sentences : list str) :
  (forall s, P (strip s)) -> Forall P (pack nchar_chunk nchunk sentences).
Proof.
  intros HP. unfold pack.
  assert (forall st, Forall P (chunks st) ->
            Forall P (chunks (fold_left (pack_step nchar_chunk nchunk) sentences st)))
    as Hfold.
  { induction sentences as [|s ss IH]; intros st Hst; simpl; [exact Hst|].
    apply IH. unfold pack_step.
    destruct (Qle_bool _ _); [destruct (negb _)|]; simpl; try exact Hst.
    apply Forall_app. split; [exact Hst | repeat constructor; apply HP]. }
  specialize (Hfold pack_init (Forall_nil _)).
  unfold pack_finish. destruct (is_empty _); [exact Hfold|].
  apply Forall_app. split; [exact Hfold | repeat constructor; apply HP].
Qed.

(** X3: when the text is longer than the budget, no chunk returned
    starts or ends with whitespace. *)
Theorem chunks_are_stripped (text : str) (splitter : str -> list str)
    (max_nchar : Z) (chunks : list str) :
  max_nchar < len text ->
  split_section text splitter max_nchar = Returns chunks ->
  Forall (fun chunk => headed chunk /\ trimmed chunk) chunks.
Proof.
  intros Hlong. unfold split_section.
  destruct (Z.leb_spec (len text) max_nchar); [lia|].
  destruct (max_nchar =? 0); [discriminate|].
  destruct (grow_nchunk _ _ _ _); [|discriminate].
  intros [= <-]. apply pack_all.
  intros s. split; [apply strip_headed | apply strip_trimmed].
Qed.

Lemma chunks_are_stripped_witness :
  Forall (fun chunk => headed chunk /\ trimmed chunk)
    [lit "a" ++ [nl] ++ lit "b"; repeat 99%N 20].
Proof.
  apply (chunks_are_stripped Samples.gap_text one_sentence 10);
    vm_compute; [reflexivity | reflexivity].
Defined.

(** *** Paragraphs and lines *)

Lemma re_split_aux_nonempty (in_run : bool) (s : str) :
  re_split_newlines_aux in_run s <> [].
Proof.
  revert in_run. induction s as [|c s IH]; intros in_run; simpl; [discriminate|].
  destruct (c =? nl)%N.
  - destruct in_run; [apply IH | discriminate].
  - destruct (re_split_newlines_aux false s); discriminate.
Qed.

Lemma re_split_aux_line (in_run : bool) (line rest : str) :
  one_line line -> line <> [] ->
  re_split_newlines_aux in_run (line ++ rest)
  = match re_split_newlines_aux false rest with
    | f :: fs => (line ++ f) :: fs
    | [] => [line]
    end.
Proof.
  intros Hline. revert in_run.
  induction Hline as [|c line Hc Hline IH]; intros in_run Hne; [contradiction|].
  simpl. apply N.eqb_neq in Hc. rewrite Hc.
  destruct line as [|c' line].
  - simpl. reflexivity.
  - rewrite (IH false) by discriminate.
    pose proof (re_split_aux_nonempty false rest).
    destruct (re_split_newlines_aux false rest); [contradiction | reflexivity].
Qed.

Lemma re_split_aux_join (in_run : bool) (texts : list str) :
  texts <> [] ->
  Forall (fun t => t <> [] /\ one_line t) texts ->
  re_split_newlines_aux in_run (join [nl] texts) = texts.
Proof.
  intros Hne Hall. revert in_run.
  induction Hall as [|t texts [Ht Hline] Hall IH]; intros in_run; [contradiction|].
  destruct texts as [|t2 texts].
  - simpl join. rewrite <- (app_nil_r t) at 1.
    rewrite re_split_aux_line by assumption. simpl. now rewrite app_nil_r.
  - change (join [nl] (t :: t2 :: texts))
      with (t ++ nl :: join [nl] (t2 :: texts)).
    rewrite re_split_aux_line by assumption.
    simpl re_split_newlines_aux at 1. change (nl =? nl)%N with true. cbv iota.
    rewrite app_nil_r. f_equal. apply IH. discriminate.
Qed.

Lemma re_split_join (texts : list str) :
  texts <> [] ->
  Forall (fun t => t <> [] /\ one_line t) texts ->
  re_split_newlines (join [nl] texts) = texts.
Proof.
  intros Hne Hall. unfold re_split_newlines.
  rewrite re_split_aux_join by assumption.
  destruct texts; [contradiction | reflexivity].
Qed.

(** X4: when the text is paragraphs joined by newlines, none of them
    empty or with a newline of its own, as the grouper joins the texts the
    extractor wrote, the lines that [split_section] hands to the splitter
    are these paragraphs. *)
Theorem lines_are_paragraphs (texts : list str) (splitter : str -> list str) :
  texts <> [] ->
  Forall (fun t => t <> [] /\ one_line t) texts ->
  re_split_newlines (join [nl] texts) = texts
  /\ split_sentences splitter (join [nl] texts)
     = fold_left
         (fun sentences paragraph =>
            append_to_last (sentences ++ splitter paragraph) [nl])
         texts [].
Proof.
  intros Hne Hall.
  pose proof (re_split_join texts Hne Hall) as E.
  split; [exact E|]. unfold split_sentences. now rewrite E.
Qed.

Lemma lines_are_paragraphs_witness :
  re_split_newlines (join [nl] [lit "Sentence one."; lit "Sentence two."])
  = [lit "Sentence one."; lit "Sentence two."]
  /\ split_sentences stop_splitter
       (join [nl] [lit "Sentence one."; lit "Sentence two."])
     = fold_left
         (fun sentences paragraph =>
            append_to_last (sentences ++ stop_splitter paragraph) [nl])
         [lit "Sentence one."; lit "Sentence two."] [].
Proof.
  apply (lines_are_paragraphs [lit "Sentence one."; lit "Sentence two."]
           stop_splitter).
  - discriminate.
  - repeat constructor; try discriminate; vm_compute; discriminate.
Defined.

(** X5: for such a text, and a splitter whose sentences concatenate back
    to the line, the chunks returned are the text itself short of
    whitespace before, between and after them: nothing inside a chunk is
    changed. *)
Theorem paragraphs_round_trip (texts : list str) (splitter : str -> list str)
    (max_nchar : Z) (chunks : list str) :
  texts <> [] ->
  Forall (fun t => t <> [] /\ one_line t) texts ->
  splitter_contract splitter ->
  split_section (join [nl] texts) splitter max_nchar = Returns chunks ->
  reconstructs chunks (join [nl] texts).
Proof.
  intros Hne Hall contract E.
  destruct (split_section_chunks _ _ _ _ contract E) as [Hrec _].
  unfold collapse_newlines in Hrec.
  rewrite (re_split_join texts Hne Hall) in Hrec.
  now destruct (_ <=? _) in Hrec.
Qed.

Lemma paragraphs_round_trip_witness :
  reconstructs [lit "Sentence one."; lit "Sentence two."]
    (join [nl] [lit "Sentence one."; lit "Sentence two."]).
Proof.
  apply (paragraphs_round_trip [lit "Sentence one."; lit "Sentence two."]
           stop_splitter 20).
  - discriminate.
  - repeat constructor; try discriminate; vm_compute; discriminate.
  - exact stop_splitter_contract.
  - vm_compute. reflexivity.
Defined.

(** *** Sentences and chunks *)

(** What the packing loop keeps: the sentences read so far are those of
    the groups closed, then those of the group open; the chunks are the
    texts of the groups closed, stripped, and [chunk_text] is the text of
    the open one. *)
Lemma pack_fold_groups (nchar_chunk : Q) (nchunk : Z) (sentences : list str)
    (st : pack_state) (closed : list (list str)) (current : list str) :
  chunks st = map (fun g => strip (concat g)) closed ->
  chunk_text st = concat current ->
  exists closed' current',
    concat closed' ++ current' = (concat closed ++ current) ++ sentences
    /\ chunks (fold_left (pack_step nchar_chunk nchunk) sentences st)
       = map (fun g => strip (concat g)) closed'
    /\ chunk_text (fold_left (pack_step nchar_chunk nchunk) sentences st)
       = concat current'.
Proof.
  revert st closed current.
  induction sentences as [|s ss IH]; intros st closed current Hc Ht.
  - exists closed, current. now rewrite app_nil_r.
  - simpl fold_left.
    assert (exists closed1 current1,
              concat closed1 ++ current1 = (concat closed ++ current) ++ [s]
              /\ chunks (pack_step nchar_chunk nchunk st s)
                 = map (fun g => strip (concat g)) closed1
              /\ chunk_text (pack_step nchar_chunk nchunk st s) = concat current1)
      as (closed1 & current1 & E1 & Hc1 & Ht1).
    { unfold pack_step.
      destruct (Qle_bool _ _); [destruct (negb _)|]; simpl.
      - exists (closed ++ [current]), [s]. repeat split.
        + rewrite concat_app. simpl. now rewrite app_nil_r.
        + rewrite map_app, Hc, Ht. reflexivity.
        + simpl. now rewrite app_nil_r.
      - exists closed, (current ++ [s]). repeat split.
        + now rewrite app_assoc.
        + exact Hc.
        + rewrite concat_app, Ht. simpl. now rewrite app_nil_r.
      - exists closed, (current ++ [s]). repeat split.
        + now rewrite app_assoc.
        + exact Hc.
        + rewrite concat_app, Ht. simpl. now rewrite app_nil_r. }
    destruct (IH _ closed1 current1 Hc1 Ht1) as (closed' & current' & E & Hc' & Ht').
    exists closed', current'. repeat split; [|exact Hc' | exact Ht'].
    rewrite E, E1, <- !app_assoc. reflexivity.
Qed.

Lemma concat_last_nonempty (current : list str) (front : list str) (s : str) :
  current <> [] -> s <> [] ->
  (exists before, before ++ current = front ++ [s]) ->
  concat current <> [].
Proof.
  intros Hne Hs [before E].
  destruct (exists_last Hne) as (current' & s' & ->).
  rewrite app_assoc in E. apply app_inj_tail in E as [_ ->].
  rewrite concat_app. simpl. rewrite app_nil_r.
  intros Hnil. apply app_eq_nil in Hnil as [_ Hnil]. contradiction.
Qed.

Lemma pack_groups (nchar_chunk : Q) (nchunk : Z) (sentences : list str) :
  (sentences = [] \/ exists front s, sentences = front ++ [s] /\ s <> []) ->
  exists groups,
    concat groups = sentences
    /\ pack nchar_chunk nchunk sentences = map (fun g => strip (concat g)) groups.
Proof.
  intros Hlast. unfold pack, pack_finish.
  destruct (pack_fold_groups nchar_chunk nchunk sentences pack_init [] [])
    as (closed & current & E & Hc & Ht); [reflexivity | reflexivity |].
  simpl in E. rewrite Hc, Ht.
  destruct current as [|s0 current].
  - exists closed. split; [now rewrite app_nil_r in E | reflexivity].
  - assert (concat (s0 :: current) <> []) as Hne.
    { destruct Hlast as [->|(front & s & -> & Hs)].
      - destruct (concat closed); discriminate E.
      - apply (concat_last_nonempty _ front s); [discriminate | exact Hs | eauto]. }
    destruct (concat (s0 :: current)) as [|c ct] eqn:Ecur; [contradiction|].
    exists (closed ++ [s0 :: current]). split.
    + rewrite concat_app. simpl. now rewrite app_nil_r.
    + simpl is_empty. cbv iota. rewrite map_app. cbn [map]. now rewrite Ecur.
Qed.

Lemma append_to_last_ends (sentences : list str) (suffix : str) :
  append_to_last sentences suffix = []
  \/ exists front s, append_to_last sentences suffix = front ++ [s ++ suffix].
Proof.
  induction sentences as [|s rest IH]; [now left|]. right.
  destruct rest as [|s' rest].
  - exists [], s. reflexivity.
  - destruct IH as [IH|(front & s1 & IH)].
    + destruct rest; discriminate IH.
    + exists (s :: front), s1.
      change (append_to_last (s :: s' :: rest) suffix)
        with (s :: append_to_last (s' :: rest) suffix).
      now rewrite IH.
Qed.

Lemma split_sentences_ends (splitter : str -> list str) (text : str) :
  split_sentences splitter text = []
  \/ exists front s, split_sentences splitter text = front ++ [s] /\ s <> [].
Proof.
  unfold split_sentences.
  destruct (exists_last (re_split_newlines_nonempty text)) as (lines & line & ->).
  rewrite fold_left_app. simpl.
  destruct (append_to_last_ends
              (fold_left
                 (fun sentences line0 =>
                    append_to_last (sentences ++ splitter line0) [nl]) lines []
               ++ splitter line) [nl]) as [E|(front & s & E)].
  - now left.
  - right. exists front, (s ++ [nl]). split; [exact E|].
    intros Hnil. apply app_eq_nil in Hnil as [_ Hnil]. discriminate.
Qed.

(** X6: when the text is longer than the budget no sentence is cut: the
    sentences of the text, in order, fall into groups, one per chunk, and
    each chunk is the sentences of its group put end to end, stripped. *)
Theorem sentences_are_not_cut (text : str) (splitter : str -> list str)
    (max_nchar : Z) (chunks : list str) :
  max_nchar < len text ->
  split_section text splitter max_nchar = Returns chunks ->
  exists groups,
    concat groups = split_sentences splitter text
    /\ chunks = map (fun g => strip (concat g)) groups.
Proof.
  intros Hlong. unfold split_section.
  destruct (Z.leb_spec (len text) max_nchar); [lia|].
  destruct (max_nchar =? 0); [discriminate|].
  destruct (grow_nchunk _ _ _ _) as [nchunk|]; [|discriminate].
  intros [= <-]. apply pack_groups, split_sentences_ends.
Qed.

Lemma sentences_are_not_cut_witness :
  exists groups,
    concat groups = split_sentences stop_splitter (lit "Ab. cd. efgh. ijklmnop. q.")
    /\ [lit "Ab. cd."; lit "efgh."; lit "ijklmnop. q."]
       = map (fun g => strip (concat g)) groups.
Proof.
  apply (sentences_are_not_cut (lit "Ab. cd. efgh. ijklmnop. q.") stop_splitter 10);
    vm_compute; reflexivity.
Defined.

(** X7: with a splitter whose sentences concatenate back to the line, a
    text that holds a character other than whitespace never comes back as
    no chunk at all, nor as empty chunks only. *)
Theorem some_chunk_is_not_empty (text : str) (splitter : str -> list str)
    (max_nchar : Z) (chunks : list str) :
  splitter_contract splitter ->
  erase_ws text <> [] ->
  split_section text splitter max_nchar = Returns chunks ->
  exists chunk, In chunk chunks /\ chunk <> [].
Proof.
  intros contract Htext E.
  destruct (split_section_chunks _ _ _ _ contract E) as [_ Herase].
  rewrite <- Herase in Htext. clear E Herase.
  induction chunks as [|chunk chunks IH]; [now contradiction Htext|].
  destruct chunk as [|c chunk].
  - destruct IH as (chunk' & Hin & Hne); [exact Htext|].
    exists chunk'. split; [now right | exact Hne].
  - exists (c :: chunk). split; [now left | discriminate].
Qed.

Lemma some_chunk_is_not_empty_witness :
  exists chunk, In chunk [[]; Samples.long_word] /\ chunk <> [].
Proof.
  apply (some_chunk_is_not_empty Samples.long_word one_sentence 750).
  - exact one_sentence_contract.
  - vm_compute. discriminate.
  - vm_compute. reflexivity.
Defined.

End ChunksMore.

(** ** More on the passage grouper *)

Module PassagesMore.
Import Chunks Json Passages Notions ChunksFacts PassagesFacts.

#[local] Arguments json_dumps : simpl never.
#[local] Arguments output_item : simpl never.

(** *** Keys *)

Lemma str_eqb_eq (a b : str) : str_eqb a b = true <-> a = b.
Proof.
  unfold str_eqb. destruct (list_eq_dec N.eq_dec a b); split; congruence.
Qed.

Lemma option_str_eqb_eq (a b : option str) : option_str_eqb a b = true <-> a = b.
Proof.
  destruct a as [x|], b as [y|]; simpl; try (split; congruence).
  rewrite str_eqb_eq. split; congruence.
Qed.

Lemma section_eqb_eq (a b : section_dict) : section_eqb a b = true <-> a = b.
Proof.
  unfold section_eqb. rewrite !andb_true_iff, !option_str_eqb_eq.
  destruct a, b; simpl. split.
  - intros [[[-> ->] ->] ->]. reflexivity.
  - intros [= -> -> -> ->]. auto.
Qed.

Lemma key_changed_false (row lastrow : paragraph) :
  key_changed row lastrow = false <-> same_key row lastrow.
Proof.
  unfold key_changed, same_key.
  rewrite orb_false_iff, !negb_false_iff, str_eqb_eq, section_eqb_eq. reflexivity.
Qed.

Lemma key_changed_true (row lastrow : paragraph) :
  key_changed row lastrow = true <-> ~ same_key row lastrow.
Proof.
  rewrite <- key_changed_false. destruct (key_changed row lastrow); split; congruence.
Qed.

Lemma same_key_sym (a b : paragraph) : same_key a b -> same_key b a.
Proof. intros [Ht Hs]. split; congruence. Qed.

Lemma same_key_trans (a b c : paragraph) :
  same_key a b -> same_key b c -> same_key a c.
Proof. intros [Ht Hs] [Ht' Hs']. split; congruence. Qed.

(** *** Runs *)






(** *** The loop, run by run *)

Section Generator.

Variable sentence_splitter : str -> list str.
Variable max_passage_length : Z.
Hypothesis budget : 1 <= max_passage_length.


End Generator.



(** *** Budgets below 1 *)

Lemma last_default {A : Type} (l : list A) (d d' : A) :
  l <> [] -> last l d = last l d'.
Proof.
  induction l as [|x l IH]; intros Hne; [contradiction|].
  destruct l as [|y l]; [reflexivity|]. apply IH. discriminate.
Qed.

Lemma rows_loop_same_key (splitter : str -> list str) (max_passage_length : Z)
    (run more : list paragraph) (passage_id : Z) (current : list paragraph)
    (lastrow : paragraph) :
  (forall a, In a run -> same_key a lastrow) ->
  rows_loop splitter max_passage_length (run ++ more) passage_id current lastrow
  = rows_loop splitter max_passage_length more passage_id (current ++ run)
      (last run lastrow).
Proof.
  revert current lastrow. induction run as [|row run IH]; intros current lastrow Hkey.
  - simpl. now rewrite app_nil_r.
  - assert (same_key row lastrow) as Hrow by (apply Hkey; now left).
    cbn [app rows_loop]. apply key_changed_false in Hrow as ->.
    rewrite IH.
    + rewrite <- app_assoc. simpl app. f_equal.
      destruct run as [|p run]; [reflexivity|].
      now rewrite (last_default (p :: run) row lastrow) by discriminate.
    + intros a Ha. apply same_key_trans with lastrow; [apply Hkey; now right|].
      apply same_key_sym, Hkey. now left.
Qed.

(** X9: under a budget below 1 the first change of key stops the
    generator before it yields anything: with a budget of 0 it raises
    [ZeroDivisionError] when the text of the first run is not empty, with a
    negative budget it never ends. *)
Theorem generate_passages_small_budget (splitter : str -> list str)
    (max_passage_length : Z) (front : list paragraph) (lastrow row : paragraph)
    (rest : list paragraph) :
  one_key (front ++ [lastrow]) ->
  ~ same_key row lastrow ->
  (max_passage_length = 0 ->
   join [nl] (map text (front ++ [lastrow])) <> [] ->
   generate_passages splitter max_passage_length ((front ++ [lastrow]) ++ row :: rest)
   = ([], Raises ZeroDivisionError))
  /\ (max_passage_length < 0 ->
      generate_passages splitter max_passage_length ((front ++ [lastrow]) ++ row :: rest)
      = ([], Diverges)).
Proof.
  intros Hkey Hrow.
  assert (forall how,
            split_section (join [nl] (map text (front ++ [lastrow]))) splitter
              max_passage_length = how ->
            (forall chunks, how <> Returns chunks) ->
            generate_passages splitter max_passage_length
              ((front ++ [lastrow]) ++ row :: rest)
            = ([], match how with Returns _ => Returns tt | Raises e => Raises e
                   | Diverges => Diverges end)) as Hstop.
  { intros how Esplit Hhow. unfold generate_passages.
    destruct ((front ++ [lastrow]) ++ row :: rest) as [|row0 data] eqn:Edata.
    { destruct front; discriminate Edata. }
    assert (In row0 (front ++ [lastrow])) as Hin0.
    { destruct front as [|f front]; simpl in Edata; injection Edata as <- _;
        now left. }
    rewrite <- Edata, rows_loop_same_key.
    - rewrite last_last. simpl app. cbn [rows_loop].
      apply key_changed_true in Hrow as ->. rewrite Esplit.
      destruct how as [chunks| |]; [now destruct (Hhow chunks) | reflexivity..].
    - intros a Ha. now apply Hkey. }
  split.
  - intros -> Htext. apply (Hstop (Raises ZeroDivisionError)); [|discriminate].
    now apply ChunksMore.split_section_zero.
  - intros HM. apply (Hstop Diverges); [|discriminate].
    now apply ChunksMore.split_section_negative.
Qed.

Lemma generate_passages_small_budget_witness :
  (0 = 0 ->
   join [nl] (map text ([Samples.row_one] ++ [Samples.row_two])) <> [] ->
   generate_passages one_sentence 0
     (([Samples.row_one] ++ [Samples.row_two]) ++ Samples.row_three :: [])
   = ([], Raises ZeroDivisionError))
  /\ (0 < 0 ->
      generate_passages one_sentence 0
        (([Samples.row_one] ++ [Samples.row_two]) ++ Samples.row_three :: [])
      = ([], Diverges)).
Proof.
  apply (generate_passages_small_budget one_sentence 0 [Samples.row_one]
           Samples.row_two Samples.row_three []).
  - intros a b [<-|[<-|[]]] [<-|[<-|[]]]; split; reflexivity.
  - intros [_ H]. discriminate H.
Defined.

End PassagesMore.

(** ** More on the paragraph extractor *)

Module ExtractorMore.
Import Extractor Notions PyStrFacts.

Local Open Scope string_scope.
Local Open Scope list_scope.

(** *** Normalized texts *)

Lemma Forall_lstrip (P : char -> Prop) (s : str) : Forall P s -> Forall P (lstrip s).
Proof.
  induction 1 as [|c s Hc Hs IH]; simpl; [constructor|].
  destruct (isspace c); [exact IH | now constructor].
Qed.

Lemma Forall_strip (P : char -> Prop) (s : str) : Forall P s -> Forall P (strip s).
Proof.
  intros Hs. unfold strip, rstrip.
  now apply Forall_rev, Forall_lstrip, Forall_rev, Forall_lstrip.
Qed.

Lemma Forall_filter (P : char -> Prop) (f : char -> bool) (s : str) :
  Forall P s -> Forall P (filter f s).
Proof.
  induction 1 as [|c s Hc Hs IH]; simpl; [constructor|].
  destruct (f c); [now constructor | exact IH].
Qed.

Lemma Forall_filter_true (f : char -> bool) (s : str) :
  Forall (fun c => f c = true) (filter f s).
Proof.
  induction s as [|c s IH]; simpl; [constructor|].
  destruct (f c) eqn:E; [now constructor | exact IH].
Qed.

Lemma join_words_spaces (ws : list str) :
  Forall word ws ->
  Forall (fun c => isspace c = true -> c = space) (join [space] ws).
Proof.
  intros Hws.
  assert (forall w, word w -> Forall (fun c => isspace c = true -> c = space) w) as Hw.
  { intros w [_ Hns]. eapply Forall_impl; [|exact Hns].
    intros c Hc Hc'. congruence. }
  induction Hws as [|w ws Hword Hws IH]; [constructor|].
  destruct ws as [|w2 ws]; [now apply Hw|].
  change (join [space] (w :: w2 :: ws)) with (w ++ space :: join [space] (w2 :: ws)).
  apply Forall_app. split; [now apply Hw|]. constructor; [reflexivity | exact IH].
Qed.

Lemma normalize_text_spaces {U : Unicodedata} (text : str) :
  Forall (fun c => isspace c = true -> c = space) (normalize_text text).
Proof.
  unfold normalize_text.
  apply Forall_strip, Forall_filter, join_words_spaces, split_ws_words.
Qed.

Lemma normalize_text_one_line {U : Unicodedata} (text : str) :
  one_line (normalize_text text).
Proof.
  eapply Forall_impl; [|apply normalize_text_spaces]. intros c Hc ->.
  specialize (Hc eq_refl). discriminate Hc.
Qed.

Lemma normalize_text_printable {U : Unicodedata} (text : str) :
  Forall (fun c => isprintable c = true) (normalize_text text).
Proof. unfold normalize_text. apply Forall_strip, Forall_filter_true. Qed.

(** X10: whatever the input, the text that [normalize_text] returns is
    made of printable characters, holds no whitespace but the space
    U+0020, so no newline, and neither starts nor ends with a space. *)
Theorem normalize_text_shape {U : Unicodedata} (text : str) :
  Forall (fun c => isprintable c = true) (normalize_text text)
  /\ Forall (fun c => isspace c = true -> c = space) (normalize_text text)
  /\ one_line (normalize_text text)
  /\ headed (normalize_text text)
  /\ trimmed (normalize_text text).
Proof.
  repeat split.
  - apply normalize_text_printable.
  - apply normalize_text_spaces.
  - apply normalize_text_one_line.
  - apply ChunksMore.strip_headed.
  - apply strip_trimmed.
Qed.

(** *** The sections walked *)

Lemma node_induction (P : node -> Prop) :
  (forall name contents, Forall P contents -> P (Tag name contents)) ->
  (forall s, P (NavigableString s)) ->
  (forall class s, P (SpecialString class s)) ->
  forall n, P n.
Proof.
  intros Htag Hstring Hspecial. fix IH 1. intros [name contents|s|class s].
  - apply Htag. induction contents as [|n contents IHc]; constructor;
      [apply IH | exact IHc].
  - apply Hstring.
  - apply Hspecial.
Qed.

Lemma find_first_tag (name name' : string) (contents : list node) :
  find_first name (Tag name' contents)
  = if String.eqb name' name then Some (Tag name' contents)
    else find_first_in name contents.
Proof.
  simpl. destruct (String.eqb name' name); [reflexivity|].
  induction contents as [|n contents IH]; [reflexivity|].
  simpl. destruct (find_first name n); [reflexivity | exact IH].
Qed.

Lemma locate_section_finds (n : node) (anc : list string) :
  option_map (fun r => snd (fst r)) (locate_section anc n)
  = descendant_named "section" n.
Proof.
  revert anc. induction n as [name contents IH|s|class s] using node_induction;
    intros anc; [|reflexivity..].
  simpl. induction IH as [|n contents Hn _ IHc]; [reflexivity|].
  cbn [find_first_in]. destruct n as [name' contents'|s'|class' s'].
  - rewrite find_first_tag.
    destruct (String.eqb name' "section"); [reflexivity|].
    specialize (Hn (name :: anc)). simpl descendant_named in Hn.
    destruct (locate_section (name :: anc) (Tag name' contents')) as [r|];
      simpl in Hn; rewrite <- Hn; [reflexivity | exact IHc].
  - exact IHc.
  - exact IHc.
Qed.

Lemma no_section_not_located (n : node) (anc : list string) :
  find_first "section" n = None -> locate_section anc n = None.
Proof.
  intros Hnone. pose proof (locate_section_finds n anc) as E.
  destruct n as [name contents|s|class s]; [|reflexivity..].
  rewrite find_first_tag in Hnone.
  destruct (String.eqb name "section"); [discriminate Hnone|].
  simpl descendant_named in E. rewrite Hnone in E.
  destruct (locate_section anc (Tag name contents)); [discriminate E | reflexivity].
Qed.

Lemma no_section_is_section (n : node) :
  find_first "section" n = None -> is_section n = false.
Proof.
  destruct n as [name contents|s|class s]; [|reflexivity..].
  rewrite find_first_tag. simpl.
  destruct (String.eqb name "section"); [discriminate | reflexivity].
Qed.

(** The scan for the first section passes over nodes that hold none. *)
Lemma locate_section_skips (name : string) (before rest : list node)
    (anc : list string) :
  Forall (fun n => find_first "section" n = None) before ->
  locate_section anc (Tag name (before ++ rest)) = locate_section anc (Tag name rest).
Proof.
  induction 1 as [|b before Hb _ IH]; [reflexivity|].
  pose proof (no_section_not_located b (name :: anc) Hb) as Hloc.
  pose proof (no_section_is_section b Hb) as Hsec.
  rewrite <- IH. destruct b as [name' contents'|s|class s]; [|reflexivity..].
  simpl in Hsec. cbn [app locate_section]. rewrite Hsec.
  cbn [locate_section] in Hloc. now rewrite Hloc.
Qed.

Lemma first_section_located (n : node) (a : list string) (first : node)
    (siblings : list node) :
  first_section n a first siblings ->
  forall anc, locate_section anc n = Some (a ++ anc, first, siblings).
Proof.
  induction 1 as [name before first siblings Hbefore Hfirst
                 |name before n after a first siblings Hbefore Hn Hfs IH];
    intros anc; rewrite locate_section_skips by exact Hbefore.
  - destruct first as [name' contents'|s|class s]; [|discriminate Hfirst..].
    simpl in Hfirst. cbn [locate_section]. now rewrite Hfirst.
  - specialize (IH (name :: anc)).
    destruct n as [name' contents'|s|class s]; [|discriminate IH..].
    simpl in Hn. cbn [locate_section] in IH |- *. rewrite Hn, IH.
    now rewrite <- app_assoc.
Qed.

Lemma locate_section_first (n : node) (anc a : list string) (first : node)
    (siblings : list node) :
  locate_section anc n = Some (a, first, siblings) ->
  exists a', a = a' ++ anc /\ first_section n a' first siblings.
Proof.
  revert anc a.
  induction n as [name contents IH|s|class s] using node_induction;
    intros anc a; [|discriminate..].
  assert (forall rest before,
            Forall (fun n => find_first "section" n = None) before ->
            Forall (fun n => forall anc a,
                      locate_section anc n = Some (a, first, siblings) ->
                      exists a', a = a' ++ anc /\ first_section n a' first siblings)
              rest ->
            locate_section anc (Tag name rest) = Some (a, first, siblings) ->
            exists a', a = a' ++ anc
                       /\ first_section (Tag name (before ++ rest)) a' first siblings)
    as Hscan.
  { intros rest before Hbefore Hrest. revert before Hbefore.
    induction Hrest as [|x rest Hx _ IHrest]; intros before Hbefore Hloc;
      [discriminate Hloc|].
    assert (find_first "section" x = None ->
            locate_section anc (Tag name rest) = Some (a, first, siblings) ->
            exists a', a = a' ++ anc
                       /\ first_section (Tag name (before ++ x :: rest)) a' first
                            siblings) as Hnext.
    { intros Hnone Hloc'.
      destruct (IHrest (before ++ [x])) as (a' & Ha & Hfs);
        [apply Forall_app; split; [exact Hbefore | now constructor]
        |exact Hloc'|].
      rewrite <- app_assoc in Hfs. eauto. }
    destruct x as [name' contents'|s|class s];
      [|apply Hnext; [reflexivity | exact Hloc]..].
    cbn [locate_section] in Hloc.
    destruct (String.eqb name' "section") eqn:Hname.
    - injection Hloc as <- <- <-. exists [name]. split; [reflexivity|].
      apply first_section_here; [exact Hbefore | exact Hname].
    - destruct (locate_section (name :: anc) (Tag name' contents'))
        as [[[a0 first0] siblings0]|] eqn:Hbelow.
      + cbn [locate_section] in Hbelow. rewrite Hbelow in Hloc.
        injection Hloc as -> -> ->.
        destruct (Hx (name :: anc) a) as (a' & -> & Hfs);
          [cbn [locate_section]; exact Hbelow|].
        exists (a' ++ [name]). split; [now rewrite <- app_assoc|].
        apply first_section_below; [exact Hbefore | exact Hname | exact Hfs].
      + pose proof (locate_section_finds (Tag name' contents') (name :: anc)) as E.
        rewrite Hbelow in E. cbn [locate_section] in Hbelow.
        rewrite Hbelow in Hloc. apply Hnext; [|exact Hloc].
        rewrite find_first_tag, Hname. simpl in E. now rewrite <- E. }
  intros Hloc. exact (Hscan contents [] (Forall_nil _) IH Hloc).
Qed.

Section Walk.

Context {U : Unicodedata}.
Variable tags_to_extract tags_to_remove inner_tags_to_remove : list string.

(** X11: a document without a section element yields nothing.  In a
    document with one, the sections walked are the first section element
    of the document in document order, then, in order, the section
    elements among the nodes that follow it under its parent: all of
    these and nothing else. *)
Theorem walk_starts_at_first_section (soup : node) :
  (descendant_named "section" soup = None ->
   extract_paragraphs_from_html tags_to_extract tags_to_remove
     inner_tags_to_remove soup = [])
  /\ (forall first,
        descendant_named "section" soup = Some first ->
        exists anc siblings, first_section soup anc first siblings)
  /\ (forall anc first siblings,
        first_section soup anc first siblings ->
        descendant_named "section" soup = Some first
        /\ sections_of soup = (anc, first :: filter is_section siblings)).
Proof.
  pose proof (locate_section_finds soup []) as E.
  split; [|split].
  - intros Hnone. unfold extract_paragraphs_from_html, sections_of.
    destruct (locate_section [] soup) as [[[anc first] siblings]|];
      [rewrite Hnone in E; discriminate E | reflexivity].
  - intros first Hfirst. rewrite Hfirst in E.
    destruct (locate_section [] soup) as [[[anc first'] siblings]|] eqn:Hloc;
      [|discriminate E].
    simpl in E. injection E as ->.
    destruct (locate_section_first _ _ _ _ _ Hloc) as (anc' & _ & Hfs). eauto.
  - intros anc first siblings Hfs.
    pose proof (first_section_located _ _ _ _ Hfs []) as Hloc.
    rewrite app_nil_r in Hloc. rewrite Hloc in E. simpl in E.
    split; [now rewrite <- E|]. unfold sections_of. now rewrite Hloc.
Qed.

(** *** What is yielded *)

Lemma visits_extracted (n : node) (anc : list string) (cut : bool) :
  Forall (fun v => name_in (tag_name v) tags_to_extract = true)
    (visits tags_to_extract inner_tags_to_remove anc cut n).
Proof.
  revert anc cut. induction n as [name contents IH|s|class s] using node_induction;
    intros anc cut; [|constructor..].
  cbn [visits]. apply Forall_app. split.
  - destruct (name_in name tags_to_extract) eqn:E; repeat constructor. exact E.
  - generalize (if cut && name_in name inner_tags_to_remove then [] else name :: anc).
    generalize (cut || name_in name tags_to_extract
                       && negb (existsb (fun parent_tag => name_in parent_tag anc)
                                  SKIP_PARENTS)).
    intros cut' anc'.
    induction IH as [|n contents Hn _ IHc]; [constructor|].
    simpl. apply Forall_app. split; [apply Hn | exact IHc].
Qed.

Lemma section_visits_extracted (anc : list string) (section : node) :
  Forall (fun v => name_in (tag_name v) tags_to_extract = true)
    (section_visits tags_to_extract tags_to_remove inner_tags_to_remove anc section).
Proof.
  destruct section as [name contents|s|class s]; [|constructor..]. simpl.
  induction (map (clear_all tags_to_remove) contents) as [|n ns IH]; [constructor|].
  simpl. apply Forall_app. split; [apply visits_extracted | exact IH].
Qed.

Lemma tags_loop_paragraph_like (tags : list visit) (ctx : headings) :
  Forall (fun v => name_in (tag_name v) tags_to_extract = true) tags ->
  Forall (paragraph_like tags_to_extract) (snd (tags_loop ctx tags)).
Proof.
  intros Htags. revert ctx.
  induction Htags as [|v tags Hv _ IH]; intros ctx; simpl; [constructor|].
  assert (Forall (paragraph_like tags_to_extract) (snd (tag_step ctx v))) as Hstep.
  { unfold tag_step. destruct (skip v); [constructor|].
    destruct (String.eqb_spec (tag_name v) "h3"); [constructor|].
    destruct (String.eqb_spec (tag_name v) "h4"); [constructor|].
    destruct (String.eqb_spec (tag_name v) "dt"); [constructor|].
    repeat constructor; simpl; eauto. }
  destruct (tag_step ctx v) as [ctx1 out1]. specialize (IH ctx1).
  destruct (tags_loop ctx1 tags) as [ctx2 out2]. simpl in *.
  apply Forall_app. now split.
Qed.

Lemma extracted_paragraph_like (soup : node) :
  Forall (paragraph_like tags_to_extract)
    (extract_paragraphs_from_html tags_to_extract tags_to_remove
       inner_tags_to_remove soup).
Proof.
  unfold extract_paragraphs_from_html.
  destruct (sections_of soup) as [anc sections].
  generalize no_headings.
  induction sections as [|section sections IH]; intros ctx; simpl; [constructor|].
  pose proof (tags_loop_paragraph_like
                (section_visits tags_to_extract tags_to_remove
                   inner_tags_to_remove anc section)
                (enter_section ctx section)
                (section_visits_extracted anc section)) as Hout.
  destruct (tags_loop _ _) as [ctx1 out]. simpl in Hout.
  apply Forall_app. split; [exact Hout | apply IH].
Qed.

(** X12: every item yielded comes from an element whose name is among
    the tags to extract and is none of h3, h4, dt, which only change the
    heading context; its text is a text that [normalize_text] returned. *)
Theorem items_are_paragraphs (soup : node) :
  Forall (fun it =>
            name_in (snd it) tags_to_extract = true
            /\ snd it <> "h3" /\ snd it <> "h4" /\ snd it <> "dt"
            /\ exists raw, snd (fst it) = normalize_text raw)
    (extract_paragraphs_from_html tags_to_extract tags_to_remove
       inner_tags_to_remove soup).
Proof. exact (extracted_paragraph_like soup). Qed.

(** *** Where an h2 comes from *)

Lemma tag_step_h2 (ctx : headings) (v : visit) :
  h2 (fst (tag_step ctx v)) = h2 ctx
  /\ Forall (fun it => h2 (item_context it) = h2 ctx) (snd (tag_step ctx v)).
Proof.
  unfold tag_step.
  destruct (skip v); [split; [reflexivity | constructor]|].
  destruct (String.eqb _ "h3"); [split; [reflexivity | constructor]|].
  destruct (String.eqb _ "h4"); [split; [reflexivity | constructor]|].
  destruct (String.eqb _ "dt"); [split; [reflexivity | constructor]|].
  split; [reflexivity | repeat constructor].
Qed.

Lemma tags_loop_h2 (tags : list visit) (ctx : headings) :
  h2 (fst (tags_loop ctx tags)) = h2 ctx
  /\ Forall (fun it => h2 (item_context it) = h2 ctx) (snd (tags_loop ctx tags)).
Proof.
  revert ctx. induction tags as [|v tags IH]; intros ctx; simpl.
  - split; [reflexivity | constructor].
  - destruct (tag_step_h2 ctx v) as [E1 H1].
    destruct (tag_step ctx v) as [ctx1 out1].
    destruct (IH ctx1) as [E2 H2].
    destruct (tags_loop ctx1 tags) as [ctx2 out2]. simpl in *.
    split; [congruence|]. apply Forall_app. split; [exact H1|].
    eapply Forall_impl; [|exact H2]. intros it Hit. congruence.
Qed.

Lemma has_h2_section_h2 (section : node) :
  section_h2 section
  = if has_h2 section then section_h2 section else None.
Proof.
  unfold section_h2, has_h2.
  destruct section as [name contents|s|class s]; [|reflexivity..].
  simpl. now destruct (find_first_in "h2" contents).
Qed.

Lemma h2_in_force_app (walked : list node) (section : node) :
  h2_in_force (walked ++ [section])
  = match section_h2 section with
    | Some heading => Some heading
    | None => h2_in_force walked
    end.
Proof.
  unfold h2_in_force. rewrite rev_app_distr. simpl.
  rewrite (has_h2_section_h2 section).
  destruct (has_h2 section) eqn:E; [|reflexivity].
  unfold section_h2, has_h2 in *.
  destruct section as [name contents|s|class s]; try discriminate E.
  simpl in *. destruct (find_first_in "h2" contents); [reflexivity | discriminate E].
Qed.

Lemma enter_section_h2 (ctx : headings) (section : node) :
  h2 (enter_section ctx section)
  = match section_h2 section with
    | Some heading => Some heading
    | None => h2 ctx
    end.
Proof.
  unfold enter_section, section_h2.
  destruct section as [name contents|s|class s]; [|reflexivity..].
  simpl. now destruct (find_first_in "h2" contents).
Qed.

Lemma tags_loop_length (tags : list visit) (ctx : headings) :
  length (snd (tags_loop ctx tags)) = length (filter yields tags).
Proof.
  revert ctx. induction tags as [|v tags IH]; intros ctx; simpl; [reflexivity|].
  assert (length (snd (tag_step ctx v)) = length (if yields v then [v] else []))
    as Hstep.
  { unfold tag_step, yields, name_in. simpl.
    destruct (skip v); [reflexivity|].
    destruct (String.eqb (tag_name v) "h3"); [reflexivity|].
    destruct (String.eqb (tag_name v) "h4"); [reflexivity|].
    destruct (String.eqb (tag_name v) "dt"); reflexivity. }
  destruct (tag_step ctx v) as [ctx1 out1]. specialize (IH ctx1).
  destruct (tags_loop ctx1 tags) as [ctx2 out2]. simpl in *.
  rewrite length_app, Hstep, IH. now destruct (yields v).
Qed.

Lemma map_constant {A B : Type} (f : A -> B) (x : B) (l : list A) :
  Forall (fun a => f a = x) l -> map f l = repeat x (length l).
Proof. induction 1 as [|a l Ha _ IH]; simpl; [reflexivity | now rewrite Ha, IH]. Qed.

Lemma sections_loop_h2 (anc : list string) (sections walked : list node)
    (ctx : headings) :
  h2 ctx = h2_in_force walked ->
  map (fun it => h2 (item_context it))
    (sections_loop tags_to_extract tags_to_remove inner_tags_to_remove
       anc ctx sections)
  = h2_column tags_to_extract tags_to_remove inner_tags_to_remove anc
      walked sections.
Proof.
  revert walked ctx.
  induction sections as [|section sections IH]; intros walked ctx Hctx; simpl;
    [reflexivity|].
  assert (h2 (enter_section ctx section) = h2_in_force (walked ++ [section]))
    as Hentered by (now rewrite enter_section_h2, h2_in_force_app, Hctx).
  destruct (tags_loop_h2
              (section_visits tags_to_extract tags_to_remove
                 inner_tags_to_remove anc section)
              (enter_section ctx section)) as [E Hout].
  pose proof (tags_loop_length
                (section_visits tags_to_extract tags_to_remove
                   inner_tags_to_remove anc section)
                (enter_section ctx section)) as Hlen.
  destruct (tags_loop _ _) as [ctx1 out]. simpl in E, Hout, Hlen.
  rewrite map_app, (map_constant _ _ _ Hout), Hlen, Hentered.
  f_equal. apply IH. congruence.
Qed.

(** X13: the h2 of the items is settled by the sections alone.  All the
    items of a section carry the same h2, which no element met inside the
    section changes: the text of the first h2 element of the section, or,
    when the section has none, what the nearest section walked before it
    that has one gave, and nothing when there is none.  The h2 of the
    items, in the order of the items, are these values, each as many times
    as its section has elements that yield an item. *)
Theorem h2_comes_from_sections (soup : node) :
  map (fun it => h2 (item_context it))
    (extract_paragraphs_from_html tags_to_extract tags_to_remove
       inner_tags_to_remove soup)
  = h2_column tags_to_extract tags_to_remove inner_tags_to_remove
      (fst (sections_of soup)) [] (snd (sections_of soup)).
Proof.
  unfold extract_paragraphs_from_html.
  destruct (sections_of soup) as [anc sections]. simpl.
  now apply sections_loop_h2.
Qed.

End Walk.

(** The sample page: its first section is found under body, both sections
    are walked, and the second one, which has no h2, goes on under the h2
    of the first. *)
Example sectioned_page_first_section :
  first_section MoreSamples.sectioned_page ["body"; "html"; "[document]"]
    MoreSamples.life_section [Samples.txt " "; MoreSamples.work_section].
Proof.
  apply (first_section_below "[document]" [] _ [] ["body"; "html"]);
    [constructor | reflexivity|].
  apply (first_section_below "html" [Tag "head" [Tag "title" [Samples.txt "A"]]]
           _ [] ["body"]);
    [repeat constructor | reflexivity|].
  apply (first_section_here "body" []); [constructor | reflexivity].
Qed.

Example sectioned_page_items :
  map (fun it => (h2 (item_context it), snd (fst it)))
    (extract_paragraphs_from_html DEFAULT_TAGS_TO_EXTRACT DEFAULT_TAGS_TO_REMOVE
       DEFAULT_INNER_TAGS_TO_REMOVE MoreSamples.sectioned_page)
  = [ (Some (lit "Life"), lit "Born in 1900.");
      (Some (lit "Life"), lit "More of the same.") ].
Proof. vm_compute. reflexivity. Qed.

(** The text of an element leaves out the comments below it, and the
    strings of a style element are the text of that element only. *)
Example text_leaves_out_special_strings :
  get_text (Tag "p" [Samples.txt "before"; SpecialString Comment (lit " note ");
                     Samples.txt "after";
                     Tag "style" [SpecialString Stylesheet (lit ".a{color:red}")];
                     Samples.txt " end"])
  = lit "beforeafter end"
  /\ get_text (Tag "style" [SpecialString Stylesheet (lit ".a{color:red}")])
     = lit ".a{color:red}".
Proof. split; reflexivity. Qed.

End ExtractorMore.

(** ** More on the two [main] functions *)

Module MainMore.
Import Json Extractor ExtractorMain Notions PyStrFacts ExtractorMore.

Local Open Scope string_scope.
Local Open Scope list_scope.

(** *** The lines written hold no newline *)

Lemma one_line_app (a b : str) : one_line a -> one_line b -> one_line (a ++ b).
Proof. intros Ha Hb. apply Forall_app. now split. Qed.

Lemma escape_char_one_line (c : char) : one_line (escape_char c).
Proof.
  unfold escape_char, one_line, quote, backslash, hex_digit, nl.
  repeat match goal with
         | |- context [(?a =? ?b)%N] => destruct (N.eqb_spec a b)
         | |- context [(?a <? ?b)%N] => destruct (N.ltb_spec a b)
         end;
    repeat (apply Forall_cons || apply Forall_nil);
    try discriminate; try assumption;
    match goal with
    | |- (_ + ?x)%N <> _ => generalize x; clear; intros d; lia
    end.
Qed.

Lemma encode_basestring_one_line (s : str) : one_line (encode_basestring s).
Proof.
  unfold encode_basestring. apply one_line_app; [repeat constructor; discriminate|].
  apply one_line_app; [|repeat constructor; discriminate].
  induction s as [|c s IH]; simpl; [constructor|].
  apply one_line_app; [apply escape_char_one_line | exact IH].
Qed.

Lemma string_of_uint_one_line (d : Decimal.uint) :
  one_line (lit (NilZero.string_of_uint d)).
Proof.
  assert (forall u, one_line (lit (NilEmpty.string_of_uint u))) as Hdigits.
  { unfold one_line. induction u; cbn [NilEmpty.string_of_uint lit];
      (apply Forall_nil || (apply Forall_cons; [now vm_compute | assumption])). }
  destruct d; try apply Hdigits.
  cbn [NilZero.string_of_uint lit].
  apply Forall_cons; [now vm_compute | apply Forall_nil].
Qed.

Lemma str_of_int_one_line (z : Z) : one_line (str_of_int z).
Proof.
  unfold str_of_int, NilZero.string_of_int.
  destruct (Z.to_int z) as [d|d]; [apply string_of_uint_one_line|].
  cbn [lit]. apply Forall_cons; [now vm_compute | apply string_of_uint_one_line].
Qed.

Lemma join_one_line (sep : str) (parts : list str) :
  one_line sep -> Forall one_line parts -> one_line (join sep parts).
Proof.
  intros Hsep Hparts. induction Hparts as [|p ps Hp Hps IH]; [constructor|].
  destruct ps as [|p2 ps]; [exact Hp|].
  change (join sep (p :: p2 :: ps)) with (p ++ sep ++ join sep (p2 :: ps)).
  now repeat apply one_line_app.
Qed.

Lemma json_induction (P : json -> Prop) :
  (forall z, P (JInt z)) ->
  (forall s, P (JStr s)) ->
  (forall members, Forall (fun kv => P (snd kv)) members -> P (JObj members)) ->
  forall v, P v.
Proof.
  intros Hint Hstr Hobj. fix IH 1. intros [z|s|members].
  - apply Hint.
  - apply Hstr.
  - apply Hobj. induction members as [|kv members IHm]; constructor;
      [apply IH | exact IHm].
Qed.

Lemma json_dumps_one_line (v : json) : one_line (json_dumps v).
Proof.
  induction v as [z|s|members IH] using json_induction.
  - apply str_of_int_one_line.
  - apply encode_basestring_one_line.
  - cbn [json_dumps].
    apply one_line_app; [repeat constructor; discriminate|].
    apply one_line_app; [|repeat constructor; discriminate].
    apply join_one_line; [repeat constructor; discriminate|].
    induction IH as [|kv members Hkv _ IHm]; [constructor|].
    cbn [map]. constructor; [|exact IHm].
    apply one_line_app; [apply encode_basestring_one_line|].
    apply one_line_app; [repeat constructor; discriminate | exact Hkv].
Qed.

Lemma items_loop_one_line {U : Unicodedata} (args : arguments) (page : input_item)
    (items : list item) (paragraph_index : Z) :
  Forall one_line (items_loop args page paragraph_index items).
Proof.
  revert paragraph_index. induction items as [|it items IH]; intros i; simpl;
    [constructor|].
  destruct (dropped args it); [apply IH|].
  constructor; [apply json_dumps_one_line | apply IH].
Qed.

(** X14: no line that either [main] prints holds a newline, whatever the
    titles, headings and texts are: a newline inside a value is written
    escaped, so the output files hold one JSON value per line. *)
Theorem printed_lines_hold_no_newline {U : Unicodedata}
    (BeautifulSoup : str -> node) (args : arguments) (pages : list input_item)
    (sentence_splitter : str -> list str) (max_passage_length : Z)
    (data : list Passages.paragraph) :
  Forall one_line (main BeautifulSoup args pages)
  /\ Forall one_line
       (fst (Passages.main sentence_splitter max_passage_length data)).
Proof.
  split.
  - unfold main. induction pages as [|page pages IH]; simpl; [constructor|].
    apply Forall_app. split; [apply items_loop_one_line | exact IH].
  - unfold Passages.main.
    destruct (Passages.generate_passages _ _ data) as [items how]. simpl.
    induction items as [|passage_item items IH]; simpl; [constructor|].
    constructor; [apply (json_dumps_one_line (JStr passage_item)) | exact IH].
Qed.

(** *** The paragraph index *)





(** The sample page has five items, of which the last is shorter than
    the default minimum: four lines per page, numbered alike on both. *)
Example main_on_two_pages :
  let written :=
    main MoreSamples.parse_nested MoreSamples.default_arguments
      [MoreSamples.life_page; MoreSamples.life_page] in
  length written = 8%nat /\ firstn 4 written = skipn 4 written.
Proof. vm_compute. split; reflexivity. Qed.

Example plain_page_yields_nothing :
  descendant_named "section" MoreSamples.plain_page = None
  /\ extract_paragraphs_from_html DEFAULT_TAGS_TO_EXTRACT DEFAULT_TAGS_TO_REMOVE
       DEFAULT_INNER_TAGS_TO_REMOVE MoreSamples.plain_page = [].
Proof. vm_compute. split; reflexivity. Qed.

End MainMore.
